(** * The counter contract of [assets/bugfree_approval_program.py]

    The source is a PyTeal expression tree: [buggy_program] builds the
    approval program of a stateful Algorand application that keeps two
    global slots, ["owner"] and ["counter"].  The development below gives
    the PyTeal combinators the source uses their TEAL meaning (a state
    and error monad over the application's global key-value store, with
    the [return] opcode as an early exit), transcribes the program with
    them, and proves the properties of the resulting state machine. *)

From Stdlib Require Import ZArith Lia.
From stdpp Require Import gmap strings list.

Local Open Scope Z_scope.

(** ** TEAL values and the ledger data the program reads *)

(** The 64-bit bound of TEAL's only integer type. *)
Definition MAX_UINT64 : Z := 18446744073709551615.

(** A stack or storage value is a uint64 or a byte string.  The integer is
    carried as a [Z]; the arithmetic below faults rather than leave the
    range [0 .. MAX_UINT64]. *)
Inductive teal_value : Type :=
| VUint (n : Z)
| VBytes (b : string).

(** [TxnType] of PyTeal, with the codes of the [TypeEnum] field. *)
Module TxnType.
Inductive t : Type :=
| Unknown | Payment | KeyRegistration | AssetConfig
| AssetTransfer | AssetFreeze | ApplicationCall.

Definition code (k : t) : Z :=
  match k with
  | Unknown => 0 | Payment => 1 | KeyRegistration => 2 | AssetConfig => 3
  | AssetTransfer => 4 | AssetFreeze => 5 | ApplicationCall => 6
  end.
End TxnType.

(** [OnComplete] of PyTeal, with the codes of the [OnCompletion] field. *)
Module OnComplete.
Inductive t : Type :=
| NoOp | OptIn | CloseOut | ClearState | UpdateApplication | DeleteApplication.

Definition code (k : t) : Z :=
  match k with
  | NoOp => 0 | OptIn => 1 | CloseOut => 2 | ClearState => 3
  | UpdateApplication => 4 | DeleteApplication => 5
  end.
End OnComplete.

(** The transaction fields the program looks at.  Every transaction has
    all of them (TEAL reads the zero value of a field its type lacks). *)
Record transaction : Type := {
  Sender : string;
  Receiver : string;
  Amount : Z;
  TypeEnum : TxnType.t;
  ApplicationID : Z;
  OnCompletion : OnComplete.t
}.

(** The atomic group around the transaction being evaluated: the entries
    before it, the transaction itself, the entries after it. *)
Record context : Type := {
  earlier : list transaction;
  current : transaction;
  later : list transaction
}.

Definition group (c : context) : list transaction :=
  earlier c ++ current c :: later c.

Definition group_index (c : context) : nat := length (earlier c).

(** What a run did to the global store, in order. *)
Inductive effect : Type :=
| GlobalRead (key : string)
| GlobalWrite (key : string) (v : teal_value).

Record machine : Type := {
  globals : gmap string teal_value;
  effects : list effect
}.

Definition read (name : string) (m : machine) : machine :=
  {| globals := globals m; effects := effects m ++ [GlobalRead name] |}.

Definition write (name : string) (v : teal_value) (m : machine) : machine :=
  {| globals := <[name := v]> (globals m);
     effects := effects m ++ [GlobalWrite name v] |}.

(** The ways a TEAL program dies. *)
Inductive fault : Type :=
| ErrOpcode            (* [err]: no arm of a [Cond] matched *)
| AssertFailed         (* [Assert] on zero; compiled for TEAL v2 it is a
                          branch to [err] and is reported as such *)
| TypeMismatch         (* an opcode got bytes for a uint64 or the reverse *)
| Overflow             (* [+] above MAX_UINT64 *)
| Underflow            (* [-] below zero *)
| GroupIndexOutOfRange (* [gtxn i] past the end of the group *).

(** ** The PyTeal combinators *)

Module PyTeal.

(** An expression either continues with a value, stops the whole program
    with a value ([return]), or faults. *)
Inductive outcome (A : Type) : Type :=
| Next (a : A) (m : machine)
| Halt (v : teal_value) (m : machine)
| Panic (f : fault) (m : machine).
Arguments Next {A} a m.
Arguments Halt {A} v m.
Arguments Panic {A} f m.

Definition TEAL (A : Type) : Type := context -> machine -> outcome A.

Definition ret {A} (a : A) : TEAL A := fun _ m => Next a m.

Definition bind {A B} (x : TEAL A) (k : A -> TEAL B) : TEAL B :=
  fun c m =>
    match x c m with
    | Next a m' => k a c m'
    | Halt v m' => Halt v m'
    | Panic f m' => Panic f m'
    end.

Definition panic {A} (f : fault) : TEAL A := fun _ m => Panic f m.

Declare Scope pyteal_scope.
Delimit Scope pyteal_scope with pyteal.
Bind Scope pyteal_scope with TEAL.

Notation "'do' x <- a ; b" := (bind a (fun x => b))
  (at level 10, x name, a at level 100, b at level 200) : pyteal_scope.

Local Open Scope pyteal_scope.

(** Literals. *)
Definition Int (n : Z) : TEAL teal_value := ret (VUint n).
Definition Bytes (s : string) : TEAL teal_value := ret (VBytes s).

(** Opcodes on evaluated operands.  A comparison pushes 1 or 0; an
    operand of the wrong type, a sum above MAX_UINT64 or a difference
    below zero is a fault. *)
Definition of_bool (b : bool) : teal_value := VUint (if b then 1 else 0).

Definition op_eq (x y : teal_value) : TEAL teal_value := fun c m =>
  match x, y with
  | VUint a, VUint b => ret (of_bool (a =? b)) c m
  | VBytes a, VBytes b => ret (of_bool (String.eqb a b)) c m
  | _, _ => panic TypeMismatch c m
  end.

Definition op_ge (x y : teal_value) : TEAL teal_value := fun c m =>
  match x, y with
  | VUint a, VUint b => ret (of_bool (b <=? a)) c m
  | _, _ => panic TypeMismatch c m
  end.

Definition op_gt (x y : teal_value) : TEAL teal_value := fun c m =>
  match x, y with
  | VUint a, VUint b => ret (of_bool (b <? a)) c m
  | _, _ => panic TypeMismatch c m
  end.

Definition op_add (x y : teal_value) : TEAL teal_value := fun c m =>
  match x, y with
  | VUint a, VUint b =>
      if a + b <=? MAX_UINT64 then ret (VUint (a + b)) c m
      else panic Overflow c m
  | _, _ => panic TypeMismatch c m
  end.

Definition op_minus (x y : teal_value) : TEAL teal_value := fun c m =>
  match x, y with
  | VUint a, VUint b =>
      if a <? b then panic Underflow c m else ret (VUint (a - b)) c m
  | _, _ => panic TypeMismatch c m
  end.

Definition op_and (x y : teal_value) : TEAL teal_value := fun c m =>
  match x, y with
  | VUint a, VUint b => ret (of_bool (negb (a =? 0) && negb (b =? 0))) c m
  | _, _ => panic TypeMismatch c m
  end.

(** Binary expressions: left operand, right operand, opcode. *)
Definition binary (op : teal_value -> teal_value -> TEAL teal_value)
    (l r : TEAL teal_value) : TEAL teal_value :=
  do x <- l; do y <- r; op x y.

Definition Eq := binary op_eq.
Definition Ge := binary op_ge.
Definition Gt := binary op_gt.
Definition Add := binary op_add.
Definition Minus := binary op_minus.

Notation "a == b" := (Eq a b) (at level 70, no associativity) : pyteal_scope.
Notation "a >= b" := (Ge a b) : pyteal_scope.
Notation "a > b" := (Gt a b) : pyteal_scope.
Notation "a + b" := (Add a b) : pyteal_scope.
Notation "a - b" := (Minus a b) : pyteal_scope.

(** [And(a, b, ...)]: every operand is evaluated, the results are joined
    with [&&] from the left. *)
Definition And (args : list (TEAL teal_value)) : TEAL teal_value :=
  match args with
  | [] => panic ErrOpcode
  | a :: rest => fold_left (binary op_and) rest a
  end.

(** [Return(e)]: the [return] opcode ends the program with [e]'s value. *)
Definition Return (e : TEAL teal_value) : TEAL unit := fun c m =>
  match e c m with
  | Next v m' => Halt v m'
  | Halt v m' => Halt v m'
  | Panic f m' => Panic f m'
  end.

(** A branch on a value: zero, non-zero, or not an integer at all. *)
Definition branch {A} (v : teal_value) (nonzero zero : TEAL A) : TEAL A :=
  fun c m =>
    match v with
    | VUint n => if n =? 0 then zero c m else nonzero c m
    | VBytes _ => panic TypeMismatch c m
    end.

Definition Assert (e : TEAL teal_value) : TEAL unit :=
  do v <- e; branch v (ret tt) (panic AssertFailed).

(** [If(cond, thenBranch, elseBranch=None)]. *)
Definition If (cond : TEAL teal_value) (thenBranch : TEAL unit)
    (elseBranch : option (TEAL unit)) : TEAL unit :=
  do v <- cond; branch v thenBranch (default (ret tt) elseBranch).

(** [Seq([e1, ..., en])]. *)
Fixpoint Seq (exprs : list (TEAL unit)) : TEAL unit :=
  match exprs with
  | [] => ret tt
  | e :: rest => do _ <- e; Seq rest
  end.

(** [Cond([c1, b1], ..., [cn, bn])]: the arm of the first condition that
    holds; [err] when none does. *)
Fixpoint Cond (arms : list (TEAL teal_value * TEAL unit)) : TEAL unit :=
  match arms with
  | [] => panic ErrOpcode
  | (cond, body) :: rest => do v <- cond; branch v body (Cond rest)
  end.

(** Global storage of the application.  Reading a key that was never
    written gives uint64 0. *)
Module App.
Definition globalGet (key : TEAL teal_value) : TEAL teal_value :=
  do k <- key;
  fun c m =>
    match k with
    | VBytes name => Next (default (VUint 0) (globals m !! name)) (read name m)
    | VUint _ => panic TypeMismatch c m
    end.

Definition globalPut (key value : TEAL teal_value) : TEAL unit :=
  do k <- key;
  do v <- value;
  fun c m =>
    match k with
    | VBytes name => Next tt (write name v m)
    | VUint _ => panic TypeMismatch c m
    end.
End App.

(** Transaction objects: [Txn] is the transaction being evaluated,
    [Gtxn[i]] entry [i] of its group. *)
Definition TxnObject : Type := context -> option transaction.

Definition Txn : TxnObject := fun c => Some (current c).
Definition Gtxn (i : nat) : TxnObject := fun c => group c !! i.

Definition field (f : transaction -> teal_value) (o : TxnObject)
  : TEAL teal_value :=
  fun c m =>
    match o c with
    | Some t => Next (f t) m
    | None => Panic GroupIndexOutOfRange m
    end.

Definition sender := field (fun t => VBytes (Sender t)).
Definition receiver := field (fun t => VBytes (Receiver t)).
Definition amount := field (fun t => VUint (Amount t)).
Definition type_enum := field (fun t => VUint (TxnType.code (TypeEnum t))).
Definition application_id := field (fun t => VUint (ApplicationID t)).
Definition on_completion :=
  field (fun t => VUint (OnComplete.code (OnCompletion t))).

(** The members of PyTeal's enumerations are integer literals. *)
Definition TxnType_ (k : TxnType.t) : TEAL teal_value := Int (TxnType.code k).
Definition OnComplete_ (k : OnComplete.t) : TEAL teal_value :=
  Int (OnComplete.code k).

End PyTeal.

Import PyTeal.
Local Open Scope pyteal_scope.

(** ** The program

    [buggy_program] of the source, name by name.  The threshold is written
    [10 * 1000000] as there. *)

Definition var_owner : TEAL teal_value := Bytes "owner".
Definition var_counter : TEAL teal_value := Bytes "counter".

Definition init_contract : TEAL unit :=
  Seq [
    App.globalPut var_owner (sender Txn);
    App.globalPut var_counter (Int 0);
    Return (Int 1)
  ].

Definition is_owner : TEAL teal_value :=
  sender Txn == App.globalGet var_owner.

Definition payment_txn : TxnObject := Gtxn 0.
Definition app_txn : TxnObject := Txn.

Definition payment_check : TEAL teal_value :=
  type_enum payment_txn == TxnType_ TxnType.Payment.
Definition payment_receiver_check : TEAL teal_value :=
  receiver payment_txn == App.globalGet var_owner.
Definition app_check : TEAL teal_value :=
  type_enum app_txn == TxnType_ TxnType.ApplicationCall.

Definition group_checks : TEAL teal_value :=
  And [
    payment_check;
    payment_receiver_check;
    app_check
  ].

Definition counter : TEAL teal_value := App.globalGet var_counter.

Definition increment_counter : TEAL unit :=
  Seq [
    Assert group_checks;
    If (amount payment_txn >= Int (10 * 1000000))
       (App.globalPut var_counter (counter + Int 1))
       (Some (If (counter > Int 0)
                 (App.globalPut var_counter (counter - Int 1))
                 None));
    Return (Int 1)
  ].

Definition program : TEAL unit :=
  Cond [
    (application_id Txn == Int 0, init_contract);
    (on_completion Txn == OnComplete_ OnComplete.DeleteApplication,
     Return is_owner);
    (on_completion Txn == OnComplete_ OnComplete.UpdateApplication,
     Return is_owner);
    (on_completion Txn == OnComplete_ OnComplete.OptIn, Return (Int 1));
    (on_completion Txn == OnComplete_ OnComplete.CloseOut, Return (Int 1));
    (on_completion Txn == OnComplete_ OnComplete.NoOp, increment_counter)
  ].

Definition buggy_program : TEAL unit := program.

Local Close Scope pyteal_scope.

(** ** What the ledger does with the program's answer

    An approval program approves when it ends with a non-zero uint64 on
    the stack.  Its writes to the global store are kept only then: a
    zero, a byte string, a fault or an empty stack fails the transaction
    and the store stays as it was before the call.  [evaluate] is the
    state machine the ledger sees: store and call in, store and verdict
    out.  The ledger hands the approval program the calls whose
    completion is NoOp, OptIn, CloseOut, UpdateApplication or
    DeleteApplication; a ClearState call goes to the clear-state program
    instead, so [evaluate] on such a call describes no call of the
    ledger. *)

Inductive rejection : Type :=
| ReturnedZero
| ReturnedBytes
| NothingReturned
| Faulted (f : fault).

Inductive verdict : Type :=
| Accept
| Reject (why : rejection).

Definition boot (g : gmap string teal_value) : machine :=
  {| globals := g; effects := [] |}.

Definition evaluate (c : context) (g : gmap string teal_value)
  : gmap string teal_value * verdict :=
  match program c (boot g) with
  | Halt (VUint n) m =>
      if n =? 0 then (g, Reject ReturnedZero) else (globals m, Accept)
  | Halt (VBytes _) _ => (g, Reject ReturnedBytes)
  | Next _ _ => (g, Reject NothingReturned)
  | Panic f _ => (g, Reject (Faulted f))
  end.

(** The machine a run stops in, and the effects of the run itself,
    whatever its end. *)
Definition final {A} (o : outcome A) : machine :=
  match o with
  | Next _ m | Halt _ m | Panic _ m => m
  end.

Definition trace (c : context) (g : gmap string teal_value) : list effect :=
  effects (final (program c (boot g))).

(** ** Vocabulary of the statements *)

(** A call to the application once it exists, with completion [k]. *)
Definition invokes (k : OnComplete.t) (c : context) : Prop :=
  ApplicationID (current c) <> 0 /\ OnCompletion (current c) = k.

(** A condition of the program holds on store [g]: it evaluates, without
    fault, to a non-zero integer. *)
Definition passes (e : TEAL teal_value) (c : context)
    (g : gmap string teal_value) : bool :=
  match e c (boot g) with
  | Next (VUint n) _ => negb (n =? 0)
  | _ => false
  end.

(** The stores the ledger can hold: the creation call runs on the empty
    store of a new application, and every later accepted call (of any
    shape) moves on from there. *)
Inductive reachable : gmap string teal_value -> Prop :=
| reach_create c g :
    ApplicationID (current c) = 0 ->
    evaluate c ∅ = (g, Accept) ->
    reachable g
| reach_call c g g' :
    reachable g ->
    evaluate c g = (g', Accept) ->
    reachable g'.

(** A computation leaves slot [k] alone: whatever its end, the slot holds
    what it held, and nothing the run added to the log writes it. *)
Definition keeps (k : string) {A} (x : TEAL A) : Prop :=
  forall c m,
    globals (final (x c m)) !! k = globals m !! k
    /\ exists es, effects (final (x c m)) = effects m ++ es
                  /\ forall v, GlobalWrite k v ∉ es.

(** What the counter slot may hold, and a store that holds such a value. *)
Definition counter_ok (v : teal_value) : Prop :=
  exists n, v = VUint n /\ 0 <= n <= MAX_UINT64.

Definition stores_counter (g : gmap string teal_value) : Prop :=
  exists v, g !! "counter" = Some v /\ counter_ok v.

(** A run extends the log by [es], and every counter value [es] writes is
    in range; the store it stops with holds a counter in range. *)
Definition counter_safe (m m' : machine) : Prop :=
  stores_counter (globals m')
  /\ exists es, effects m' = effects m ++ es
                /\ forall v, GlobalWrite "counter" v ∈ es -> counter_ok v.

(** ** Sample ledger data

    Addresses are byte strings; short names stand for them here.  An
    application call carries no receiver and no amount. *)

Definition payment (from to : string) (amt : Z) : transaction :=
  {| Sender := from; Receiver := to; Amount := amt;
     TypeEnum := TxnType.Payment;
     ApplicationID := 0; OnCompletion := OnComplete.NoOp |}.

Definition app_call (from : string) (id : Z) (k : OnComplete.t)
  : transaction :=
  {| Sender := from; Receiver := EmptyString; Amount := 0;
     TypeEnum := TxnType.ApplicationCall;
     ApplicationID := id; OnCompletion := k |}.

Definition alone (t : transaction) : context :=
  {| earlier := []; current := t; later := [] |}.

Definition paired (p t : transaction) : context :=
  {| earlier := [p]; current := t; later := [] |}.

Definition store (owner : string) (n : Z) : gmap string teal_value :=
  <["counter" := VUint n]> (<["owner" := VBytes owner]> ∅).

(** The store after a sequence of calls, each judged by [evaluate] on the
    store its predecessors left. *)
Definition run_calls (cs : list context) (g : gmap string teal_value)
  : gmap string teal_value :=
  fold_left (fun g c => fst (evaluate c g)) cs g.

(** ** Running the pieces of the program *)

#[global] Instance teal_value_eq_dec : EqDecision teal_value.
Proof. solve_decision. Defined.

#[global] Instance TxnType_eq_dec : EqDecision TxnType.t.
Proof. solve_decision. Defined.

#[global] Instance OnComplete_eq_dec : EqDecision OnComplete.t.
Proof. solve_decision. Defined.

Lemma TxnType_code_eqb a b :
  (TxnType.code a =? TxnType.code b) = bool_decide (a = b).
Proof. destruct a, b; reflexivity. Qed.

Ltac teal_unfold :=
  cbv [program init_contract increment_counter group_checks payment_check
       payment_receiver_check app_check is_owner counter payment_txn app_txn
       var_owner var_counter
       bind ret panic Int Bytes binary Eq Ge Gt Add Minus And fold_left
       op_eq op_ge op_gt op_add op_minus op_and branch
       Return Assert If Seq Cond App.globalGet App.globalPut
       Txn Gtxn field sender receiver amount type_enum application_id
       on_completion TxnType_ OnComplete_] in *.

(** Symbolic execution: unfold the program, then compute as far as the
    lookups and field values known in the context allow. *)
Ltac teal_known :=
  repeat match goal with
         | H : _ !! _ = _ |- _ => rewrite H
         | H : TypeEnum _ = _ |- _ => rewrite H
         | H : OnCompletion _ = _ |- _ => rewrite H
         end.

Ltac teal_run :=
  teal_unfold; change (10 * 1000000) with 10000000 in *;
  repeat (progress (cbn; teal_known)).

(** Case on an integer test of the goal, dropping the impossible side. *)
Ltac teal_test :=
  match goal with
  | |- context [?a <=? ?b] => destruct (Z.leb_spec a b); try lia
  | |- context [?a <? ?b] => destruct (Z.ltb_spec a b); try lia
  | |- context [?a =? ?b] => destruct (Z.eqb_spec a b); try lia
  end; teal_run.

(** The first arm of [program] is taken exactly when the application id is
    zero; after that the completion code alone picks the arm. *)
Lemma program_dispatch c m :
  program c m =
  if ApplicationID (current c) =? 0 then init_contract c m
  else match OnCompletion (current c) with
       | OnComplete.DeleteApplication | OnComplete.UpdateApplication =>
           Return is_owner c m
       | OnComplete.OptIn | OnComplete.CloseOut => Return (Int 1) c m
       | OnComplete.NoOp => increment_counter c m
       | OnComplete.ClearState => Panic ErrOpcode m
       end.
Proof.
  teal_unfold.
  destruct (ApplicationID (current c) =? 0); [reflexivity|].
  destruct (OnCompletion (current c)); reflexivity.
Qed.

Lemma init_contract_run c m :
  init_contract c m =
  Halt (VUint 1)
    (write "counter" (VUint 0) (write "owner" (VBytes (Sender (current c))) m)).
Proof. reflexivity. Qed.

Lemma is_owner_run c m :
  is_owner c m =
  match default (VUint 0) (globals m !! "owner") with
  | VBytes o =>
      Next (of_bool (String.eqb (Sender (current c)) o)) (read "owner" m)
  | VUint _ => Panic TypeMismatch (read "owner" m)
  end.
Proof.
  teal_unfold.
  destruct (default (VUint 0) (globals m !! "owner")); reflexivity.
Qed.

Lemma is_owner_run' c m : final (Return is_owner c m) = read "owner" m.
Proof.
  unfold Return. rewrite is_owner_run.
  by destruct (default (VUint 0) (globals m !! "owner")).
Qed.

(** [group_checks] reads the owner once; all three clauses are evaluated
    and joined. *)
Lemma group_checks_run c m p :
  group c !! 0%nat = Some p ->
  group_checks c m =
  match default (VUint 0) (globals m !! "owner") with
  | VBytes o =>
      Next (of_bool
              (bool_decide (TypeEnum p = TxnType.Payment)
               && String.eqb (Receiver p) o
               && bool_decide (TypeEnum (current c) = TxnType.ApplicationCall)))
           (read "owner" m)
  | VUint _ => Panic TypeMismatch (read "owner" m)
  end.
Proof.
  intros Hp. teal_unfold. rewrite Hp, !TxnType_code_eqb.
  destruct (default (VUint 0) (globals m !! "owner")) as [n|o]; cbn.
  - reflexivity.
  - destruct (bool_decide (TypeEnum p = TxnType.Payment)),
      (String.eqb (Receiver p) o),
      (bool_decide (TypeEnum (current c) = TxnType.ApplicationCall));
      reflexivity.
Qed.

(** Entry 0 of the group always exists: it is the first earlier entry, or
    the evaluated transaction itself when there is none. *)
Lemma group_first c :
  group c !! 0%nat = Some (default (current c) (head (earlier c))).
Proof. unfold group. destruct (earlier c); reflexivity. Qed.

(** The three ways through [increment_counter] once the assertion has
    passed, and the way out when it has not. *)
Lemma increment_counter_up c m p o n :
  group c !! 0%nat = Some p ->
  globals m !! "owner" = Some (VBytes o) ->
  globals m !! "counter" = Some (VUint n) ->
  TypeEnum p = TxnType.Payment -> Receiver p = o ->
  TypeEnum (current c) = TxnType.ApplicationCall ->
  10000000 <= Amount p ->
  increment_counter c m =
  if n + 1 <=? MAX_UINT64
  then Halt (VUint 1)
         (write "counter" (VUint (n + 1)) (read "counter" (read "owner" m)))
  else Panic Overflow (read "counter" (read "owner" m)).
Proof.
  intros Hp Ho Hn Hk <- Hk' Ha. teal_run.
  rewrite String.eqb_refl. teal_run.
  teal_test. teal_test; reflexivity.
Qed.

Lemma increment_counter_down c m p o n :
  group c !! 0%nat = Some p ->
  globals m !! "owner" = Some (VBytes o) ->
  globals m !! "counter" = Some (VUint n) ->
  TypeEnum p = TxnType.Payment -> Receiver p = o ->
  TypeEnum (current c) = TxnType.ApplicationCall ->
  Amount p < 10000000 ->
  increment_counter c m =
  if 0 <? n
  then Halt (VUint 1)
         (write "counter" (VUint (n - 1))
            (read "counter" (read "counter" (read "owner" m))))
  else Halt (VUint 1) (read "counter" (read "owner" m)).
Proof.
  intros Hp Ho Hn Hk <- Hk' Ha. teal_run.
  rewrite String.eqb_refl. teal_run.
  teal_test. teal_test; [|reflexivity]. teal_test. reflexivity.
Qed.

Lemma increment_counter_refused c m p :
  group c !! 0%nat = Some p ->
  TypeEnum p <> TxnType.Payment
  \/ globals m !! "owner" <> Some (VBytes (Receiver p))
  \/ TypeEnum (current c) <> TxnType.ApplicationCall ->
  increment_counter c m = Panic AssertFailed (read "owner" m)
  \/ increment_counter c m = Panic TypeMismatch (read "owner" m).
Proof.
  intros Hp Hbad.
  unfold increment_counter. cbn [Seq]. cbv [bind Assert].
  rewrite (group_checks_run _ _ _ Hp).
  destruct (globals m !! "owner") as [[n|o]|] eqn:Ho; cbn; auto.
  destruct (bool_decide_reflect (TypeEnum p = TxnType.Payment)); cbn; auto.
  destruct (String.eqb_spec (Receiver p) o); cbn; auto.
  destruct (bool_decide_reflect
              (TypeEnum (current c) = TxnType.ApplicationCall)); cbn; auto.
  subst o. tauto.
Qed.

(** ** Frame rules: which combinators leave a slot alone *)

Section Frame.
Variable k : string.

Lemma keeps_intro {A} (x : TEAL A) :
  (forall c m, final (x c m) = m) -> keeps k x.
Proof.
  intros H c m. rewrite H. split; [reflexivity|].
  exists []. rewrite app_nil_r. split; [reflexivity|]. intros v Hv.
  by apply elem_of_nil in Hv.
Qed.

Lemma keeps_ret {A} (a : A) : keeps k (ret a).
Proof. by apply keeps_intro. Qed.

Lemma keeps_panic {A} f : keeps k (@panic A f).
Proof. by apply keeps_intro. Qed.

Lemma keeps_bind {A B} (x : TEAL A) (f : A -> TEAL B) :
  keeps k x -> (forall a, keeps k (f a)) -> keeps k (bind x f).
Proof.
  intros Hx Hf c m. unfold bind.
  destruct (Hx c m) as [Hg (es & He & Hw)].
  destruct (x c m) as [a m'|v m'|e m']; cbn in *; [|eauto..].
  destruct (Hf a c m') as [Hg' (es' & He' & Hw')].
  split; [congruence|].
  exists (es ++ es'). rewrite He', He, app_assoc. split; [reflexivity|].
  intros v [Hv|Hv]%elem_of_app; [by eapply Hw | by eapply Hw'].
Qed.

Lemma keeps_op (op : teal_value -> teal_value -> TEAL teal_value) :
  op ∈ [op_eq; op_ge; op_gt; op_add; op_minus; op_and] ->
  forall x y, keeps k (op x y).
Proof.
  intros Hop x y. apply keeps_intro. intros c m.
  repeat (apply elem_of_cons in Hop as [->|Hop]);
    [..|by apply elem_of_nil in Hop];
    destruct x, y; cbn; try reflexivity; by case_match.
Qed.

Lemma keeps_binary op l r :
  op ∈ [op_eq; op_ge; op_gt; op_add; op_minus; op_and] ->
  keeps k l -> keeps k r -> keeps k (binary op l r).
Proof.
  intros Hop Hl Hr. unfold binary.
  apply keeps_bind; [done|]. intros x.
  apply keeps_bind; [done|]. intros y. by apply keeps_op.
Qed.

Lemma keeps_field f o : keeps k (field f o).
Proof. apply keeps_intro. intros c m. unfold field. by case_match. Qed.

Lemma keeps_Return e : keeps k e -> keeps k (Return e).
Proof.
  intros He c m. specialize (He c m). unfold Return.
  by destruct (e c m).
Qed.

Lemma keeps_branch {A} v (yes no : TEAL A) :
  keeps k yes -> keeps k no -> keeps k (branch v yes no).
Proof.
  intros Hy Hn c m. unfold branch.
  destruct v as [n|b]; [|by apply keeps_panic].
  destruct (n =? 0); [apply Hn | apply Hy].
Qed.

Lemma keeps_Assert e : keeps k e -> keeps k (Assert e).
Proof.
  intros He. apply keeps_bind; [done|]. intros v.
  apply keeps_branch; [apply keeps_ret | apply keeps_panic].
Qed.

Lemma keeps_If cond yes no :
  keeps k cond -> keeps k yes -> from_option (keeps k) True no ->
  keeps k (If cond yes no).
Proof.
  intros Hc Hy Hn. apply keeps_bind; [done|]. intros v.
  apply keeps_branch; [done|].
  destruct no; [done | apply keeps_ret].
Qed.

Lemma keeps_Seq exprs : Forall (keeps k) exprs -> keeps k (Seq exprs).
Proof.
  induction 1 as [|e rest He _ IH]; cbn; [apply keeps_ret|].
  by apply keeps_bind.
Qed.

Lemma keeps_Cond arms :
  Forall (fun arm => keeps k (fst arm) /\ keeps k (snd arm)) arms ->
  keeps k (Cond arms).
Proof.
  induction 1 as [|[cond body] rest [Hc Hb] _ IH]; cbn; [apply keeps_panic|].
  apply keeps_bind; [done|]. intros v. by apply keeps_branch.
Qed.

Lemma keeps_And args : Forall (keeps k) args -> keeps k (And args).
Proof.
  intros [|a rest Ha Hrest]; cbn; [apply keeps_panic|].
  revert a Ha. induction Hrest as [|b rest Hb _ IH]; intros a Ha; cbn; [done|].
  apply IH, keeps_binary; [repeat constructor|done..].
Qed.

Lemma keeps_globalGet name : keeps k (App.globalGet (Bytes name)).
Proof.
  intros c m. cbn. split; [reflexivity|].
  exists [GlobalRead name]. split; [reflexivity|].
  intros v Hv. apply list_elem_of_singleton in Hv. discriminate.
Qed.

Lemma keeps_globalPut name value :
  name <> k -> keeps k value -> keeps k (App.globalPut (Bytes name) value).
Proof.
  intros Hne Hv c m. unfold App.globalPut, bind, Bytes, ret.
  destruct (Hv c m) as [Hg (es & He & Hw)].
  destruct (value c m) as [a m'|v m'|e m']; cbn in *; [|eauto..].
  rewrite lookup_insert_ne by done. split; [done|].
  exists (es ++ [GlobalWrite name a]). rewrite He, app_assoc.
  split; [reflexivity|].
  intros v [Hin|Hin]%elem_of_app; [by eapply Hw|].
  apply list_elem_of_singleton in Hin. congruence.
Qed.

End Frame.

Create HintDb teal_frame.
#[local] Hint Resolve keeps_ret keeps_panic keeps_binary keeps_field
  keeps_Return keeps_Assert keeps_If keeps_Seq keeps_Cond keeps_And
  keeps_globalGet keeps_globalPut : teal_frame.
#[local] Hint Constructors Forall : teal_frame.
#[local] Hint Extern 1 (_ ∈ _) => repeat constructor : teal_frame.
#[local] Hint Extern 1 (_ <> _) => discriminate : teal_frame.
#[local] Hint Extern 1 (from_option _ _ _) => cbn : teal_frame.
#[local] Hint Extern 1 (keeps _ (Int _)) => apply keeps_ret : teal_frame.

Ltac teal_frame :=
  cbv [increment_counter group_checks payment_check payment_receiver_check
       app_check is_owner counter var_owner var_counter
       Eq Ge Gt Add Minus sender receiver amount type_enum];
  eauto 30 with teal_frame.

(** Only [init_contract] names the owner slot in a [globalPut]. *)
Lemma increment_counter_keeps_owner : keeps "owner" increment_counter.
Proof. teal_frame. Qed.

Lemma is_owner_keeps k : keeps k (Return is_owner).
Proof. teal_frame. Qed.

Lemma called_keeps_owner c m :
  ApplicationID (current c) <> 0 ->
  globals (final (program c m)) !! "owner" = globals m !! "owner"
  /\ exists es, effects (final (program c m)) = effects m ++ es
                /\ forall v, GlobalWrite "owner" v ∉ es.
Proof.
  intros Hid. rewrite program_dispatch.
  destruct (Z.eqb_spec (ApplicationID (current c)) 0); [done|].
  destruct (OnCompletion (current c)).
  - apply increment_counter_keeps_owner.
  - by apply (keeps_Return _ (Int 1)), keeps_ret.
  - by apply (keeps_Return _ (Int 1)), keeps_ret.
  - exact (keeps_panic "owner" (A := unit) ErrOpcode c m).
  - apply is_owner_keeps.
  - apply is_owner_keeps.
Qed.

(** ** The counter stays a uint64 *)

Lemma counter_safe_refl m : stores_counter (globals m) -> counter_safe m m.
Proof.
  intros H. split; [done|]. exists []. rewrite app_nil_r. split; [done|].
  intros v Hv. by apply elem_of_nil in Hv.
Qed.

Lemma counter_safe_trans m1 m2 m3 :
  counter_safe m1 m2 -> counter_safe m2 m3 -> counter_safe m1 m3.
Proof.
  intros [_ (es & He & Hw)] [Hg (es' & He' & Hw')]. split; [done|].
  exists (es ++ es'). rewrite He', He, app_assoc. split; [done|].
  intros v [Hv|Hv]%elem_of_app; auto.
Qed.

Lemma counter_safe_read name m :
  stores_counter (globals m) -> counter_safe m (read name m).
Proof.
  intros H. split; [done|]. exists [GlobalRead name]. split; [done|].
  intros v Hv. apply list_elem_of_singleton in Hv. discriminate.
Qed.

Lemma counter_safe_write_counter v m :
  counter_ok v -> counter_safe m (write "counter" v m).
Proof.
  intros H. split; cbn.
  - exists v. by rewrite lookup_insert_eq.
  - exists [GlobalWrite "counter" v]. split; [done|].
    intros w Hw. apply list_elem_of_singleton in Hw. by simplify_eq.
Qed.

Lemma counter_ok_zero : counter_ok (VUint 0).
Proof. exists 0. unfold MAX_UINT64. split; [done|lia]. Qed.

Lemma init_contract_counter c m : counter_safe m (final (init_contract c m)).
Proof.
  rewrite init_contract_run. cbn [final].
  split.
  - exists (VUint 0). split; [apply lookup_insert_eq | apply counter_ok_zero].
  - eexists. cbn. rewrite <- app_assoc. split; [reflexivity|].
    intros v [Hv|Hv]%elem_of_cons; [discriminate|].
    apply list_elem_of_singleton in Hv. simplify_eq. apply counter_ok_zero.
Qed.

(** The group either satisfies the three clauses or breaks one. *)
Lemma group_checks_cases c m p :
  (TypeEnum p = TxnType.Payment
   /\ globals m !! "owner" = Some (VBytes (Receiver p))
   /\ TypeEnum (current c) = TxnType.ApplicationCall)
  \/ (TypeEnum p <> TxnType.Payment
      \/ globals m !! "owner" <> Some (VBytes (Receiver p))
      \/ TypeEnum (current c) <> TxnType.ApplicationCall).
Proof.
  destruct (decide (TypeEnum p = TxnType.Payment)); [|tauto].
  destruct (decide (globals m !! "owner" = Some (VBytes (Receiver p))));
    [|tauto].
  destruct (decide (TypeEnum (current c) = TxnType.ApplicationCall)); tauto.
Qed.

Lemma increment_counter_counter c m :
  stores_counter (globals m) -> counter_safe m (final (increment_counter c m)).
Proof.
  intros Hm. pose proof Hm as (v & Hv & n & -> & Hn).
  pose proof (group_first c) as Hp.
  set (p := default (current c) (head (earlier c))) in Hp.
  assert (Hr : counter_safe m (read "counter" (read "owner" m))).
  { eapply counter_safe_trans; by apply counter_safe_read. }
  destruct (group_checks_cases c m p) as [(Hk & Ho & Hk')|Hbad].
  - destruct (Z.le_gt_cases 10000000 (Amount p)).
    + rewrite (increment_counter_up _ _ _ _ _ Hp Ho Hv) by done.
      destruct (Z.leb_spec (n + 1) MAX_UINT64); cbn [final]; [|done].
      eapply counter_safe_trans; [done|].
      apply counter_safe_write_counter. exists (n + 1). split; [done|lia].
    + rewrite (increment_counter_down _ _ _ _ _ Hp Ho Hv) by done.
      destruct (Z.ltb_spec 0 n); cbn [final]; [|done].
      eapply counter_safe_trans;
        [eapply counter_safe_trans; [exact Hr|by apply counter_safe_read]|].
      apply counter_safe_write_counter. exists (n - 1). split; [done|lia].
  - destruct (increment_counter_refused _ m _ Hp Hbad) as [-> | ->];
      by apply counter_safe_read.
Qed.

Lemma program_counter c m :
  ApplicationID (current c) = 0 \/ stores_counter (globals m) ->
  counter_safe m (final (program c m)).
Proof.
  intros H. rewrite program_dispatch.
  destruct (Z.eqb_spec (ApplicationID (current c)) 0) as [|Hid];
    [apply init_contract_counter|].
  destruct H as [|H]; [done|].
  destruct (OnCompletion (current c)).
  - by apply increment_counter_counter.
  - by apply counter_safe_refl.
  - by apply counter_safe_refl.
  - by apply counter_safe_refl.
  - rewrite is_owner_run'. by apply counter_safe_read.
  - rewrite is_owner_run'. by apply counter_safe_read.
Qed.

(** ** From runs to verdicts *)

Lemma evaluate_accept c g g' :
  evaluate c g = (g', Accept) -> g' = globals (final (program c (boot g))).
Proof.
  unfold evaluate.
  destruct (program c (boot g)) as [a m|[n|b] m|f m]; cbn; try congruence.
  destruct (n =? 0); congruence.
Qed.

Lemma evaluate_halt c g n m :
  program c (boot g) = Halt (VUint n) m -> n <> 0 ->
  evaluate c g = (globals m, Accept).
Proof.
  intros Hrun Hn. unfold evaluate. rewrite Hrun.
  by destruct (Z.eqb_spec n 0).
Qed.

Lemma evaluate_panic c g f m :
  program c (boot g) = Panic f m -> evaluate c g = (g, Reject (Faulted f)).
Proof. intros Hrun. unfold evaluate. by rewrite Hrun. Qed.

Lemma program_noop c m :
  invokes OnComplete.NoOp c -> program c m = increment_counter c m.
Proof.
  intros [Hid Hoc]. rewrite program_dispatch, Hoc.
  by destruct (Z.eqb_spec (ApplicationID (current c)) 0).
Qed.

(** What it takes for [group_checks] to pass. *)
Lemma group_checks_passes c g p :
  group c !! 0%nat = Some p ->
  passes group_checks c g = true <->
  TypeEnum p = TxnType.Payment
  /\ g !! "owner" = Some (VBytes (Receiver p))
  /\ TypeEnum (current c) = TxnType.ApplicationCall.
Proof.
  intros Hp. unfold passes. rewrite (group_checks_run _ _ _ Hp). cbn.
  destruct (g !! "owner") as [[n|o]|]; cbn;
    [intuition congruence| |intuition congruence].
  destruct (bool_decide_reflect (TypeEnum p = TxnType.Payment));
    [|cbn; intuition congruence].
  destruct (String.eqb_spec (Receiver p) o); [|cbn; intuition congruence].
  destruct (bool_decide_reflect
              (TypeEnum (current c) = TxnType.ApplicationCall));
    cbn; intuition congruence.
Qed.

(** The program looks at its group through the evaluated transaction and
    entry 0 only. *)
Lemma program_group c c' m :
  current c = current c' -> group c !! 0%nat = group c' !! 0%nat ->
  program c m = program c' m.
Proof. intros Hc Hg. teal_unfold. by rewrite Hc, Hg. Qed.

(** ** Sample runs *)

Example create_by_alice :
  evaluate (alone (app_call "alice" 0 OnComplete.NoOp)) ∅
  = (store "alice" 0, Accept).
Proof. reflexivity. Qed.

Example ten_algos_from_bob :
  evaluate (paired (payment "bob" "alice" 10000000)
                   (app_call "bob" 7 OnComplete.NoOp)) (store "alice" 0)
  = (store "alice" 1, Accept).
Proof. reflexivity. Qed.

Example stranger_cannot_delete :
  evaluate (alone (app_call "bob" 7 OnComplete.DeleteApplication))
           (store "alice" 4)
  = (store "alice" 4, Reject ReturnedZero).
Proof. reflexivity. Qed.

(** ** The properties of the state machine *)

(** C6.  A call whose application id is zero (the first call ever), with any
    completion code, stores the caller as owner and 0 as counter and is
    accepted; the run consists of these two writes and reads nothing. *)
Theorem create_sets_owner_and_counter c g :
  ApplicationID (current c) = 0 ->
  evaluate c g
  = (<["counter" := VUint 0]> (<["owner" := VBytes (Sender (current c))]> g),
     Accept)
  /\ trace c g = [GlobalWrite "owner" (VBytes (Sender (current c)));
                  GlobalWrite "counter" (VUint 0)].
Proof.
  intros Hid.
  assert (Hrun : program c (boot g)
                 = Halt (VUint 1)
                     (write "counter" (VUint 0)
                        (write "owner" (VBytes (Sender (current c))) (boot g)))).
  { rewrite program_dispatch, Hid. apply init_contract_run. }
  split.
  - by rewrite (evaluate_halt _ _ _ _ Hrun).
  - unfold trace. by rewrite Hrun.
Qed.

Lemma create_sets_owner_and_counter_witness :
  let c := alone (app_call "alice" 0 OnComplete.OptIn) in
  let g := store "bob" 9 in
  ApplicationID (current c) = 0
  /\ evaluate c g
     = (<["counter" := VUint 0]> (<["owner" := VBytes "alice"]> g), Accept)
  /\ trace c g = [GlobalWrite "owner" (VBytes "alice");
                  GlobalWrite "counter" (VUint 0)].
Proof.
  intros c g. split; [reflexivity|].
  exact (create_sets_owner_and_counter c g eq_refl).
Defined.

(** C5.  On an initialised store, Delete and Update are accepted exactly
    when the caller is the stored owner, and the store is left as it was
    either way: the run is a single read of the owner. *)
Theorem delete_update_owner_only c g o :
  g !! "owner" = Some (VBytes o) ->
  invokes OnComplete.DeleteApplication c
  \/ invokes OnComplete.UpdateApplication c ->
  fst (evaluate c g) = g
  /\ (snd (evaluate c g) = Accept <-> Sender (current c) = o)
  /\ trace c g = [GlobalRead "owner"].
Proof.
  intros Ho Hk.
  assert (Hrun : program c (boot g)
                 = Halt (of_bool (String.eqb (Sender (current c)) o))
                     (read "owner" (boot g))).
  { rewrite program_dispatch.
    destruct Hk as [[Hid ->]|[Hid ->]];
      (destruct (Z.eqb_spec (ApplicationID (current c)) 0); [done|]);
      unfold Return; rewrite is_owner_run; cbn; by rewrite Ho. }
  unfold evaluate, trace. rewrite Hrun.
  destruct (String.eqb_spec (Sender (current c)) o); cbn;
    intuition congruence.
Qed.

Lemma delete_update_owner_only_witness :
  let c := alone (app_call "alice" 7 OnComplete.DeleteApplication) in
  let g := store "alice" 4 in
  invokes OnComplete.DeleteApplication c
  /\ fst (evaluate c g) = g
  /\ (snd (evaluate c g) = Accept <-> Sender (current c) = "alice")
  /\ trace c g = [GlobalRead "owner"].
Proof.
  intros c g.
  assert (Hk : invokes OnComplete.DeleteApplication c)
    by (split; [discriminate|reflexivity]).
  split; [exact Hk|].
  exact (delete_update_owner_only c g "alice" eq_refl (or_introl Hk)).
Defined.

(** C10.  No call to an existing application touches the owner slot,
    whatever its completion code and whether it is accepted or not: the
    slot holds what it held and the run has no write to it. *)
Theorem owner_written_by_create_only c g :
  ApplicationID (current c) <> 0 ->
  fst (evaluate c g) !! "owner" = g !! "owner"
  /\ forall v, GlobalWrite "owner" v ∉ trace c g.
Proof.
  intros Hid.
  destruct (called_keeps_owner c (boot g) Hid) as [Hg (es & He & Hw)].
  change (globals (boot g)) with g in Hg.
  change (effects (boot g) ++ es) with es in He. split.
  - unfold evaluate.
    destruct (program c (boot g)) as [a m|[n|b] m|f m]; try reflexivity.
    destruct (n =? 0); [reflexivity|exact Hg].
  - unfold trace. by rewrite He.
Qed.

Lemma owner_written_by_create_only_witness :
  let c := paired (payment "bob" "alice" 10000000)
                  (app_call "bob" 7 OnComplete.NoOp) in
  let g := store "alice" 0 in
  ApplicationID (current c) <> 0
  /\ fst (evaluate c g) !! "owner" = g !! "owner"
  /\ forall v, GlobalWrite "owner" v ∉ trace c g.
Proof.
  intros c g.
  assert (Hid : ApplicationID (current c) <> 0) by discriminate.
  split; [exact Hid|].
  exact (owner_written_by_create_only c g Hid).
Defined.

(** C1.  Every store reachable from the creation call by accepted calls
    holds a counter that is a non-negative integer (and fits 64 bits), and
    whatever a further call writes to the counter slot is non-negative
    too. *)
Theorem counter_never_negative g :
  reachable g ->
  (exists n, g !! "counter" = Some (VUint n) /\ 0 <= n <= MAX_UINT64)
  /\ forall c v, GlobalWrite "counter" v ∈ trace c g ->
                 exists n, v = VUint n /\ 0 <= n.
Proof.
  intros Hg.
  assert (Hs : stores_counter g).
  { induction Hg as [c g Hid Hev|c g g' _ IH Hev];
      apply evaluate_accept in Hev as ->;
      apply program_counter; cbn; auto. }
  split.
  - destruct Hs as (v & Hv & n & -> & Hn). eauto.
  - intros c v Hv.
    destruct (program_counter c (boot g) (or_intror Hs))
      as [_ (es & He & Hw)].
    unfold trace in Hv. rewrite He in Hv. cbn in Hv.
    destruct (Hw v Hv) as (n & -> & Hn). exists n. split; [done|lia].
Qed.

Lemma counter_never_negative_witness :
  let g := store "alice" 1 in
  reachable g
  /\ (exists n, g !! "counter" = Some (VUint n) /\ 0 <= n <= MAX_UINT64)
  /\ forall c v, GlobalWrite "counter" v ∈ trace c g ->
                 exists n, v = VUint n /\ 0 <= n.
Proof.
  intros g.
  assert (H : reachable g).
  { apply (reach_call (paired (payment "bob" "alice" 10000000)
                              (app_call "bob" 7 OnComplete.NoOp))
                      (store "alice" 0)); [|reflexivity].
    apply (reach_create (alone (app_call "alice" 0 OnComplete.NoOp)));
      reflexivity. }
  split; [exact H|].
  exact (counter_never_negative g H).
Defined.

(** C7, as the code has it.  When the group passes [group_checks], entry 0
    pays 10_000_000 or more and the counter is below MAX_UINT64, a NoOp
    call is accepted and the counter goes up by exactly 1 (from 5 to 6,
    for one). *)
Theorem noop_increments c g p n :
  invokes OnComplete.NoOp c ->
  passes group_checks c g = true ->
  group c !! 0%nat = Some p ->
  10000000 <= Amount p ->
  g !! "counter" = Some (VUint n) ->
  n < MAX_UINT64 ->
  evaluate c g = (<["counter" := VUint (n + 1)]> g, Accept).
Proof.
  intros Hk Hpass Hp Ha Hn Hmax.
  apply (group_checks_passes _ _ _ Hp) in Hpass as (Hty & Ho & Hty').
  assert (Hrun : program c (boot g)
                 = Halt (VUint 1)
                     (write "counter" (VUint (n + 1))
                        (read "counter" (read "owner" (boot g))))).
  { rewrite (program_noop _ _ Hk).
    rewrite (increment_counter_up c (boot g) p _ n Hp Ho Hn) by done.
    by destruct (Z.leb_spec (n + 1) MAX_UINT64); [|lia]. }
  by rewrite (evaluate_halt _ _ _ _ Hrun).
Qed.

Lemma noop_increments_witness :
  let c := paired (payment "bob" "alice" 10000000)
                  (app_call "bob" 7 OnComplete.NoOp) in
  let g := store "alice" 5 in
  (invokes OnComplete.NoOp c /\ passes group_checks c g = true
   /\ 10000000 <= 10000000 /\ 5 < MAX_UINT64)
  /\ evaluate c g = (store "alice" 6, Accept).
Proof.
  intros c g.
  assert (Hk : invokes OnComplete.NoOp c)
    by (split; [discriminate|reflexivity]).
  assert (Ha : 10000000 <= 10000000) by lia.
  assert (Hmax : 5 < MAX_UINT64) by reflexivity.
  split; [by repeat split|].
  rewrite (noop_increments c g (payment "bob" "alice" 10000000) 5
             Hk eq_refl eq_refl Ha eq_refl Hmax).
  reflexivity.
Defined.

(** C7 as written fails at the top of the range: with the counter at
    MAX_UINT64 the addition faults and the call is rejected. *)
Lemma noop_increment_overflows :
  let c := paired (payment "bob" "alice" 10000000)
                  (app_call "bob" 7 OnComplete.NoOp) in
  let g := store "alice" MAX_UINT64 in
  invokes OnComplete.NoOp c
  /\ passes group_checks c g = true
  /\ 10000000 <= Amount (payment "bob" "alice" 10000000)
  /\ evaluate c g = (g, Reject (Faulted Overflow))
  /\ snd (evaluate c g) <> Accept.
Proof.
  intros c g. split; [split; [discriminate|reflexivity]|].
  split; [reflexivity|]. split; [discriminate|].
  split; [reflexivity|discriminate].
Qed.

(** C8.  When the group passes [group_checks], entry 0 pays less than
    10_000_000 and the counter is above 0, a NoOp call is accepted and the
    counter goes down by exactly 1 (from 3 to 2 on a payment of
    1_000_000, for one). *)
Theorem noop_decrements c g p n :
  invokes OnComplete.NoOp c ->
  passes group_checks c g = true ->
  group c !! 0%nat = Some p ->
  Amount p < 10000000 ->
  g !! "counter" = Some (VUint n) ->
  0 < n ->
  evaluate c g = (<["counter" := VUint (n - 1)]> g, Accept).
Proof.
  intros Hk Hpass Hp Ha Hn Hpos.
  apply (group_checks_passes _ _ _ Hp) in Hpass as (Hty & Ho & Hty').
  assert (Hrun : program c (boot g)
                 = Halt (VUint 1)
                     (write "counter" (VUint (n - 1))
                        (read "counter"
                           (read "counter" (read "owner" (boot g)))))).
  { rewrite (program_noop _ _ Hk).
    rewrite (increment_counter_down c (boot g) p _ n Hp Ho Hn) by done.
    by destruct (Z.ltb_spec 0 n); [|lia]. }
  by rewrite (evaluate_halt _ _ _ _ Hrun).
Qed.

Lemma noop_decrements_witness :
  let c := paired (payment "bob" "alice" 1000000)
                  (app_call "bob" 7 OnComplete.NoOp) in
  let g := store "alice" 3 in
  (invokes OnComplete.NoOp c /\ passes group_checks c g = true
   /\ 1000000 < 10000000 /\ 0 < 3)
  /\ evaluate c g = (store "alice" 2, Accept).
Proof.
  intros c g.
  assert (Hk : invokes OnComplete.NoOp c)
    by (split; [discriminate|reflexivity]).
  assert (Ha : 1000000 < 10000000) by reflexivity.
  assert (Hpos : 0 < 3) by reflexivity.
  split; [by repeat split|].
  rewrite (noop_decrements c g (payment "bob" "alice" 1000000) 3
             Hk eq_refl eq_refl Ha eq_refl Hpos).
  reflexivity.
Defined.

(** The guarded fall-through of [increment_counter]: group in order, small
    payment, counter at 0. *)
Lemma noop_at_zero_run c g p :
  invokes OnComplete.NoOp c ->
  passes group_checks c g = true ->
  group c !! 0%nat = Some p ->
  Amount p < 10000000 ->
  g !! "counter" = Some (VUint 0) ->
  program c (boot g)
  = Halt (VUint 1) (read "counter" (read "owner" (boot g))).
Proof.
  intros Hk Hpass Hp Ha Hn.
  apply (group_checks_passes _ _ _ Hp) in Hpass as (Hty & Ho & Hty').
  rewrite (program_noop _ _ Hk).
  by rewrite (increment_counter_down c (boot g) p _ 0 Hp Ho Hn).
Qed.

(** C3.  When the group passes [group_checks], entry 0 pays less than
    10_000_000 and the counter is 0, a NoOp call is accepted with the
    store untouched: the run reads the owner and the counter and writes
    nothing. *)
Theorem noop_at_zero_accepts_unchanged c g p :
  invokes OnComplete.NoOp c ->
  passes group_checks c g = true ->
  group c !! 0%nat = Some p ->
  Amount p < 10000000 ->
  g !! "counter" = Some (VUint 0) ->
  evaluate c g = (g, Accept)
  /\ trace c g = [GlobalRead "owner"; GlobalRead "counter"].
Proof.
  intros Hk Hpass Hp Ha Hn.
  pose proof (noop_at_zero_run c g p Hk Hpass Hp Ha Hn) as Hrun.
  split.
  - by rewrite (evaluate_halt _ _ _ _ Hrun).
  - unfold trace. by rewrite Hrun.
Qed.

Lemma noop_at_zero_accepts_unchanged_witness :
  let c := paired (payment "bob" "alice" 9999999)
                  (app_call "bob" 7 OnComplete.NoOp) in
  let g := store "alice" 0 in
  (invokes OnComplete.NoOp c /\ passes group_checks c g = true
   /\ 9999999 < 10000000)
  /\ evaluate c g = (g, Accept)
  /\ trace c g = [GlobalRead "owner"; GlobalRead "counter"].
Proof.
  intros c g.
  assert (Hk : invokes OnComplete.NoOp c)
    by (split; [discriminate|reflexivity]).
  assert (Ha : 9999999 < 10000000) by reflexivity.
  split; [by repeat split|].
  exact (noop_at_zero_accepts_unchanged c g (payment "bob" "alice" 9999999)
           Hk eq_refl eq_refl Ha eq_refl).
Defined.

(** C2, as the code has it.  With a 2-entry group that passes
    [group_checks], a payment of 1_000_000 and the counter at 0, the guard
    [counter > Int(0)] is false, the subtraction is not run, and the
    program halts with 1: the call is accepted, no fault occurs, and the
    store is unchanged. *)
Theorem noop_at_zero_does_not_fault c g p :
  invokes OnComplete.NoOp c ->
  length (group c) = 2%nat ->
  passes group_checks c g = true ->
  group c !! 0%nat = Some p ->
  Amount p = 1000000 ->
  g !! "counter" = Some (VUint 0) ->
  program c (boot g) = Halt (VUint 1) (read "counter" (read "owner" (boot g)))
  /\ evaluate c g = (g, Accept)
  /\ forall f, snd (evaluate c g) <> Reject (Faulted f).
Proof.
  intros Hk _ Hpass Hp Ha Hn.
  assert (Ha' : Amount p < 10000000) by (rewrite Ha; reflexivity).
  pose proof (noop_at_zero_run c g p Hk Hpass Hp Ha' Hn) as Hrun.
  split; [exact Hrun|].
  rewrite (evaluate_halt _ _ _ _ Hrun) by done.
  split; [reflexivity|discriminate].
Qed.

Lemma noop_at_zero_does_not_fault_witness :
  let c := paired (payment "bob" "alice" 1000000)
                  (app_call "bob" 7 OnComplete.NoOp) in
  let g := store "alice" 0 in
  (invokes OnComplete.NoOp c /\ length (group c) = 2%nat
   /\ passes group_checks c g = true)
  /\ program c (boot g)
     = Halt (VUint 1) (read "counter" (read "owner" (boot g)))
  /\ evaluate c g = (g, Accept)
  /\ forall f, snd (evaluate c g) <> Reject (Faulted f).
Proof.
  intros c g.
  assert (Hk : invokes OnComplete.NoOp c)
    by (split; [discriminate|reflexivity]).
  split; [by repeat split|].
  exact (noop_at_zero_does_not_fault c g (payment "bob" "alice" 1000000)
           Hk eq_refl eq_refl eq_refl eq_refl eq_refl).
Defined.

(** C2 as written fails: at counter 0 and a payment of 1_000_000 the call
    is accepted; there is no arithmetic fault. *)
Lemma noop_at_zero_is_accepted :
  let c := paired (payment "bob" "alice" 1000000)
                  (app_call "bob" 7 OnComplete.NoOp) in
  let g := store "alice" 0 in
  invokes OnComplete.NoOp c
  /\ length (group c) = 2%nat
  /\ passes group_checks c g = true
  /\ g !! "counter" = Some (VUint 0)
  /\ evaluate c g = (g, Accept)
  /\ snd (evaluate c g) <> Reject (Faulted Underflow).
Proof.
  intros c g. split; [split; [discriminate|reflexivity]|].
  repeat split; discriminate.
Qed.

(** C9.  A NoOp call is rejected with the store unchanged, whatever entry
    0 pays, as soon as one clause of [group_checks] is false: entry 0 of
    the group is no payment, or its receiver is not the stored owner, or
    the call itself (entry 1 of the pair, [Txn] in the code) is no
    application call.  This holds for every group, wherever the call sits
    in it.  [group_checks] does not pass, and the run stops after reading
    the owner. *)
Theorem noop_rejected_on_bad_group c g t0 :
  invokes OnComplete.NoOp c ->
  group c !! 0%nat = Some t0 ->
  TypeEnum t0 <> TxnType.Payment
  \/ g !! "owner" <> Some (VBytes (Receiver t0))
  \/ TypeEnum (current c) <> TxnType.ApplicationCall ->
  passes group_checks c g = false
  /\ (evaluate c g = (g, Reject (Faulted AssertFailed))
      \/ evaluate c g = (g, Reject (Faulted TypeMismatch)))
  /\ trace c g = [GlobalRead "owner"].
Proof.
  intros Hk H0 Hbad. split.
  - destruct (passes group_checks c g) eqn:Hpass; [|reflexivity].
    apply (group_checks_passes _ _ _ H0) in Hpass. tauto.
  - pose proof (increment_counter_refused c (boot g) t0 H0 Hbad) as Hrun.
    rewrite <- (program_noop _ _ Hk) in Hrun.
    unfold trace.
    destruct Hrun as [Hrun|Hrun];
      rewrite Hrun, (evaluate_panic _ _ _ _ Hrun); auto.
Qed.

Lemma noop_rejected_on_bad_group_witness :
  let c := {| earlier := [payment "bob" "carol" 10000000;
                          payment "bob" "alice" 10000000];
              current := app_call "bob" 7 OnComplete.NoOp;
              later := [] |} in
  let g := store "alice" 5 in
  (invokes OnComplete.NoOp c
   /\ g !! "owner" <> Some (VBytes "carol"))
  /\ passes group_checks c g = false
  /\ (evaluate c g = (g, Reject (Faulted AssertFailed))
      \/ evaluate c g = (g, Reject (Faulted TypeMismatch)))
  /\ trace c g = [GlobalRead "owner"].
Proof.
  intros c g.
  assert (Hk : invokes OnComplete.NoOp c)
    by (split; [discriminate|reflexivity]).
  assert (Ho : g !! "owner" <> Some (VBytes "carol")) by discriminate.
  split; [by split|].
  exact (noop_rejected_on_bad_group c g (payment "bob" "carol" 10000000)
           Hk eq_refl (or_intror (or_introl Ho))).
Defined.

(** C4, as the code has it.  The program never looks at the size of the
    group.  A NoOp call whose group has fewer than 2 entries is rejected
    with the store unchanged, because entry 0 is then the call itself and
    cannot be both a payment and an application call.  In any group, a
    NoOp call gets the verdict and the store of the 2-entry group made of
    entry 0 and the call itself, however many entries the group has. *)
Theorem noop_group_size_unchecked c g :
  invokes OnComplete.NoOp c ->
  ((length (group c) < 2)%nat ->
   evaluate c g = (g, Reject (Faulted AssertFailed))
   \/ evaluate c g = (g, Reject (Faulted TypeMismatch)))
  /\ (forall p, group c !! 0%nat = Some p ->
                evaluate c g = evaluate (paired p (current c)) g).
Proof.
  intros Hk. split.
  - intros Hlen.
    assert (H0 : group c !! 0%nat = Some (current c)).
    { unfold group in *. destruct (earlier c); [done|].
      rewrite length_app in Hlen. cbn in Hlen. lia. }
    assert (Hbad : TypeEnum (current c) <> TxnType.Payment
                   \/ g !! "owner" <> Some (VBytes (Receiver (current c)))
                   \/ TypeEnum (current c) <> TxnType.ApplicationCall).
    { destruct (TypeEnum (current c)); auto. }
    pose proof (increment_counter_refused c (boot g) _ H0 Hbad) as Hrun.
    rewrite <- (program_noop _ _ Hk) in Hrun.
    destruct Hrun as [Hrun|Hrun]; rewrite (evaluate_panic _ _ _ _ Hrun); auto.
  - intros p Hp. unfold evaluate.
    by rewrite (program_group c (paired p (current c)) (boot g)).
Qed.

Lemma noop_group_size_unchecked_witness :
  let c := {| earlier := [payment "bob" "alice" 10000000];
              current := app_call "bob" 7 OnComplete.NoOp;
              later := [payment "bob" "carol" 5] |} in
  let g := store "alice" 5 in
  invokes OnComplete.NoOp c
  /\ evaluate c g
     = evaluate (paired (payment "bob" "alice" 10000000)
                        (app_call "bob" 7 OnComplete.NoOp)) g.
Proof.
  intros c g.
  assert (Hk : invokes OnComplete.NoOp c)
    by (split; [discriminate|reflexivity]).
  split; [exact Hk|].
  destruct (noop_group_size_unchecked c g Hk) as [_ H].
  exact (H (payment "bob" "alice" 10000000) eq_refl).
Defined.

(** C4 as written fails: a NoOp call in a group of 3 entries is accepted
    and moves the counter. *)
Lemma noop_accepted_in_group_of_three :
  let c := {| earlier := [payment "bob" "alice" 10000000];
              current := app_call "bob" 7 OnComplete.NoOp;
              later := [payment "bob" "carol" 5] |} in
  invokes OnComplete.NoOp c
  /\ length (group c) <> 2%nat
  /\ evaluate c (store "alice" 5) = (store "alice" 6, Accept).
Proof.
  intros c. split; [split; [discriminate|reflexivity]|].
  split; [discriminate|reflexivity].
Qed.

(** ** Beyond the single steps: every arm, every store *)

(** [increment_counter] past its assertion, on any store: the counter slot
    is read as it is (0 when absent, a fault when it holds bytes). *)
Lemma increment_counter_passed c m p :
  group c !! 0%nat = Some p ->
  TypeEnum p = TxnType.Payment ->
  globals m !! "owner" = Some (VBytes (Receiver p)) ->
  TypeEnum (current c) = TxnType.ApplicationCall ->
  increment_counter c m =
  let m2 := read "counter" (read "owner" m) in
  match default (VUint 0) (globals m !! "counter") with
  | VUint n =>
      if 10000000 <=? Amount p then
        if n + 1 <=? MAX_UINT64
        then Halt (VUint 1) (write "counter" (VUint (n + 1)) m2)
        else Panic Overflow m2
      else if 0 <? n
        then Halt (VUint 1)
               (write "counter" (VUint (n - 1)) (read "counter" m2))
        else Halt (VUint 1) m2
  | VBytes _ => Panic TypeMismatch m2
  end.
Proof.
  intros Hp Hk Ho Hk'. teal_run.
  rewrite String.eqb_refl. teal_run.
  destruct (default (VUint 0) (globals m !! "counter")) as [n|b] eqn:Hn;
    teal_run.
  - teal_test.
    + teal_test; reflexivity.
    + rewrite ?Hn. teal_run. teal_test; [|reflexivity].
      rewrite ?Hn. teal_run. teal_test. reflexivity.
  - teal_test; rewrite ?Hn; reflexivity.
Qed.

Lemma program_called c m :
  ApplicationID (current c) <> 0 ->
  program c m =
  match OnCompletion (current c) with
  | OnComplete.DeleteApplication | OnComplete.UpdateApplication =>
      Return is_owner c m
  | OnComplete.OptIn | OnComplete.CloseOut => Halt (VUint 1) m
  | OnComplete.NoOp => increment_counter c m
  | OnComplete.ClearState => Panic ErrOpcode m
  end.
Proof.
  intros Hid. rewrite program_dispatch.
  by destruct (Z.eqb_spec (ApplicationID (current c)) 0).
Qed.

Lemma return_is_owner_run c m :
  Return is_owner c m =
  match default (VUint 0) (globals m !! "owner") with
  | VBytes o =>
      Halt (of_bool (String.eqb (Sender (current c)) o)) (read "owner" m)
  | VUint _ => Panic TypeMismatch (read "owner" m)
  end.
Proof.
  unfold Return. rewrite is_owner_run.
  by destruct (default (VUint 0) (globals m !! "owner")).
Qed.

(** X1.  OptIn and CloseOut calls to an existing application are accepted
    for every caller and every store, and do nothing at all: the store is
    unchanged and the run neither reads nor writes. *)
Theorem optin_closeout_accept_untouched c g :
  invokes OnComplete.OptIn c \/ invokes OnComplete.CloseOut c ->
  evaluate c g = (g, Accept) /\ trace c g = [].
Proof.
  intros Hk.
  assert (Hrun : program c (boot g) = Halt (VUint 1) (boot g)).
  { destruct Hk as [[Hid Hoc]|[Hid Hoc]];
      by rewrite (program_called _ _ Hid), Hoc. }
  split.
  - by rewrite (evaluate_halt _ _ _ _ Hrun).
  - unfold trace. by rewrite Hrun.
Qed.

Lemma optin_closeout_accept_untouched_witness :
  let c := alone (app_call "mallory" 7 OnComplete.CloseOut) in
  let g := store "alice" 4 in
  (invokes OnComplete.OptIn c \/ invokes OnComplete.CloseOut c)
  /\ evaluate c g = (g, Accept) /\ trace c g = [].
Proof.
  intros c g.
  assert (Hk : invokes OnComplete.OptIn c \/ invokes OnComplete.CloseOut c)
    by (right; split; [discriminate|reflexivity]).
  split; [exact Hk|].
  exact (optin_closeout_accept_untouched c g Hk).
Defined.

(** X3.  On a store whose owner slot is absent or holds an integer, Delete
    and Update are rejected for every caller: [is_owner] compares the
    sender's bytes with an integer and the comparison faults. *)
Theorem delete_update_need_owner_bytes c g :
  (forall o, g !! "owner" <> Some (VBytes o)) ->
  invokes OnComplete.DeleteApplication c
  \/ invokes OnComplete.UpdateApplication c ->
  evaluate c g = (g, Reject (Faulted TypeMismatch))
  /\ trace c g = [GlobalRead "owner"].
Proof.
  intros Ho Hk.
  assert (Hrun : program c (boot g)
                 = Panic TypeMismatch (read "owner" (boot g))).
  { destruct Hk as [[Hid Hoc]|[Hid Hoc]];
      rewrite (program_called _ _ Hid), Hoc, return_is_owner_run; cbn;
      destruct (g !! "owner") as [[n|o]|] eqn:E; try reflexivity;
      by destruct (Ho o). }
  split.
  - by rewrite (evaluate_panic _ _ _ _ Hrun).
  - unfold trace. by rewrite Hrun.
Qed.

Lemma delete_update_need_owner_bytes_witness :
  let c := alone (app_call "alice" 7 OnComplete.DeleteApplication) in
  let g : gmap string teal_value := ∅ in
  ((forall o, g !! "owner" <> Some (VBytes o))
   /\ invokes OnComplete.DeleteApplication c)
  /\ evaluate c g = (g, Reject (Faulted TypeMismatch))
  /\ trace c g = [GlobalRead "owner"].
Proof.
  intros c g.
  assert (Ho : forall o, g !! "owner" <> Some (VBytes o))
    by (intros o; discriminate).
  assert (Hk : invokes OnComplete.DeleteApplication c)
    by (split; [discriminate|reflexivity]).
  split; [by split|].
  exact (delete_update_need_owner_bytes c g Ho (or_introl Hk)).
Defined.

(** X4.  Whatever the call and whatever the store, the verdict is accept,
    a returned zero, or one of four faults: [err], a failed assertion, a
    type mismatch or an addition overflow.  In particular no run ever
    subtracts below zero, indexes past its group, or ends without a
    uint64 answer. *)
Theorem verdict_is_one_of c g :
  snd (evaluate c g)
  ∈ [Accept; Reject ReturnedZero; Reject (Faulted ErrOpcode);
     Reject (Faulted AssertFailed); Reject (Faulted TypeMismatch);
     Reject (Faulted Overflow)].
Proof.
  unfold evaluate.
  destruct (Z.eq_dec (ApplicationID (current c)) 0) as [Hid|Hid].
  { rewrite program_dispatch, Hid, init_contract_run. cbn.
    repeat constructor. }
  rewrite (program_called _ _ Hid).
  destruct (OnCompletion (current c)); try (cbn; by repeat constructor).
  - pose proof (group_first c) as Hp.
    set (p := default (current c) (head (earlier c))) in Hp.
    destruct (group_checks_cases c (boot g) p) as [(Hk & Ho & Hk')|Hbad].
    + rewrite (increment_counter_passed _ _ _ Hp Hk Ho Hk'). cbn.
      destruct (default (VUint 0) (g !! "counter"));
        [|cbn; by repeat constructor].
      destruct (10000000 <=? Amount p);
        [destruct (n + 1 <=? MAX_UINT64)|destruct (0 <? n)];
        cbn; by repeat constructor.
    + destruct (increment_counter_refused _ _ _ Hp Hbad) as [-> | ->];
        cbn; by repeat constructor.
  - rewrite return_is_owner_run.
    destruct (default _ _) as [n|o]; [cbn; by repeat constructor|].
    destruct (String.eqb _ o); cbn; by repeat constructor.
  - rewrite return_is_owner_run.
    destruct (default _ _) as [n|o]; [cbn; by repeat constructor|].
    destruct (String.eqb _ o); cbn; by repeat constructor.
Qed.

Ltac no_write_in_reads :=
  let Hin := fresh "Hin" in
  intros ? ? Hin; cbn in Hin;
  repeat (apply elem_of_cons in Hin as [Hin|Hin]; [discriminate|]);
  by apply elem_of_nil in Hin.

(** X5.  The program never writes and then refuses: a run that does not
    end in accept has no write in it, so a rejected call leaves the store
    alone by itself, before any rollback by the ledger. *)
Theorem rejected_runs_write_nothing c g :
  snd (evaluate c g) <> Accept ->
  forall k v, GlobalWrite k v ∉ trace c g.
Proof.
  unfold evaluate, trace.
  destruct (Z.eq_dec (ApplicationID (current c)) 0) as [Hid|Hid].
  { rewrite program_dispatch, Hid, init_contract_run. by cbn. }
  rewrite (program_called _ _ Hid).
  destruct (OnCompletion (current c)); try (cbn; intros _; no_write_in_reads).
  - pose proof (group_first c) as Hp.
    set (p := default (current c) (head (earlier c))) in Hp.
    destruct (group_checks_cases c (boot g) p) as [(Hk & Ho & Hk')|Hbad].
    + rewrite (increment_counter_passed _ _ _ Hp Hk Ho Hk'). cbn.
      destruct (default (VUint 0) (g !! "counter"));
        [|intros _; no_write_in_reads].
      destruct (10000000 <=? Amount p);
        [destruct (n + 1 <=? MAX_UINT64)|destruct (0 <? n)];
        cbn; try done; intros _; no_write_in_reads.
    + destruct (increment_counter_refused _ _ _ Hp Hbad) as [-> | ->];
        intros _; no_write_in_reads.
  - rewrite return_is_owner_run.
    destruct (default _ _) as [n|o]; intros _; no_write_in_reads.
  - rewrite return_is_owner_run.
    destruct (default _ _) as [n|o]; intros _; no_write_in_reads.
Qed.

Lemma rejected_runs_write_nothing_witness :
  let c := paired (payment "bob" "alice" 10000000)
                  (app_call "bob" 7 OnComplete.NoOp) in
  let g := store "alice" MAX_UINT64 in
  snd (evaluate c g) <> Accept
  /\ forall k v, GlobalWrite k v ∉ trace c g.
Proof.
  intros c g.
  assert (H : snd (evaluate c g) <> Accept) by discriminate.
  split; [exact H|].
  exact (rejected_runs_write_nothing c g H).
Defined.

(** An accepted call to an existing application leaves the store as it
    is or moves its counter by one. *)
Lemma called_successor c g g' n :
  ApplicationID (current c) <> 0 ->
  g !! "counter" = Some (VUint n) ->
  evaluate c g = (g', Accept) ->
  g' = g
  \/ (n < MAX_UINT64 /\ g' = <["counter" := VUint (n + 1)]> g)
  \/ (0 < n /\ g' = <["counter" := VUint (n - 1)]> g).
Proof.
  intros Hid Hn. unfold evaluate. rewrite (program_called _ _ Hid).
  destruct (OnCompletion (current c)).
  - pose proof (group_first c) as Hp.
    set (p := default (current c) (head (earlier c))) in Hp.
    destruct (group_checks_cases c (boot g) p) as [(Hk & Ho & Hk')|Hbad].
    + rewrite (increment_counter_passed _ _ _ Hp Hk Ho Hk'). cbn.
      rewrite Hn. cbn.
      destruct (10000000 <=? Amount p).
      * destruct (Z.leb_spec (n + 1) MAX_UINT64); cbn; [|congruence].
        intros [= <-]. right; left. split; [lia|done].
      * destruct (Z.ltb_spec 0 n); cbn; intros [= <-]; auto.
    + destruct (increment_counter_refused _ _ _ Hp Hbad) as [-> | ->];
        congruence.
  - cbn. intros [= <-]. auto.
  - cbn. intros [= <-]. auto.
  - cbn. congruence.
  - rewrite return_is_owner_run.
    destruct (default _ _) as [x|o]; [congruence|].
    destruct (String.eqb _ o); cbn; [intros [= <-]; auto|congruence].
  - rewrite return_is_owner_run.
    destruct (default _ _) as [x|o]; [congruence|].
    destruct (String.eqb _ o); cbn; [intros [= <-]; auto|congruence].
Qed.

Lemma program_create c m :
  ApplicationID (current c) = 0 ->
  program c m
  = Halt (VUint 1)
      (write "counter" (VUint 0)
         (write "owner" (VBytes (Sender (current c))) m)).
Proof. intros Hid. by rewrite program_dispatch, Hid, init_contract_run. Qed.

Lemma store_counter o n : store o n !! "counter" = Some (VUint n).
Proof. apply lookup_insert_eq. Qed.

Lemma store_owner o n : store o n !! "owner" = Some (VBytes o).
Proof. unfold store. by rewrite lookup_insert_ne, lookup_insert_eq. Qed.

Lemma store_set_counter o n n' :
  <["counter" := VUint n']> (store o n) = store o n'.
Proof. apply insert_insert_eq. Qed.

Lemma store_reset s o n :
  <["counter" := VUint 0]> (<["owner" := VBytes s]> (store o n)) = store s 0.
Proof.
  apply map_eq. intros k. unfold store.
  destruct (decide (k = "counter")) as [->|Hc];
    [by rewrite !lookup_insert_eq|].
  rewrite !(lookup_insert_ne _ "counter") by done.
  destruct (decide (k = "owner")) as [->|Ho];
    [by rewrite !lookup_insert_eq|].
  repeat (rewrite lookup_insert_ne by done). reflexivity.
Qed.

Lemma reachable_store g :
  reachable g ->
  exists o n, g = store o n /\ 0 <= n <= MAX_UINT64.
Proof.
  induction 1 as [c g Hid Hev|c g g' _ (o & n & -> & Hn) Hev].
  - unfold evaluate in Hev. rewrite (program_create _ _ Hid) in Hev.
    injection Hev as <-. exists (Sender (current c)), 0.
    split; [reflexivity|]. unfold MAX_UINT64. lia.
  - destruct (Z.eq_dec (ApplicationID (current c)) 0) as [Hid|Hid].
    + unfold evaluate in Hev. rewrite (program_create _ _ Hid) in Hev.
      injection Hev as <-. exists (Sender (current c)), 0.
      split; [apply store_reset|]. unfold MAX_UINT64. lia.
    + destruct (called_successor _ _ _ n Hid (store_counter o n) Hev)
        as [->|[[Hlt ->]|[Hgt ->]]]; rewrite ?store_set_counter.
      * by exists o, n.
      * exists o, (n + 1). split; [done|lia].
      * exists o, (n - 1). split; [done|lia].
Qed.

(** X6.  Every store reachable from the creation call has exactly the two
    keys owner and counter, the owner slot holding a byte string and the
    counter slot a uint64: no other key ever appears and neither slot
    ever changes type. *)
Theorem reachable_is_owner_and_counter g :
  reachable g ->
  dom g = {["owner"; "counter"]}
  /\ (exists o, g !! "owner" = Some (VBytes o))
  /\ (exists n, g !! "counter" = Some (VUint n) /\ 0 <= n <= MAX_UINT64).
Proof.
  intros (o & n & -> & Hn)%reachable_store. split; [|split].
  - unfold store. rewrite !dom_insert_L, dom_empty_L. set_solver.
  - exists o. apply store_owner.
  - exists n. split; [apply store_counter|done].
Qed.

Lemma reachable_is_owner_and_counter_witness :
  let g := store "alice" 1 in
  reachable g
  /\ dom g = {["owner"; "counter"]}
  /\ (exists o, g !! "owner" = Some (VBytes o))
  /\ (exists n, g !! "counter" = Some (VUint n) /\ 0 <= n <= MAX_UINT64).
Proof.
  intros g.
  assert (H : reachable g).
  { apply (reach_call (paired (payment "bob" "alice" 10000000)
                              (app_call "bob" 7 OnComplete.NoOp))
                      (store "alice" 0)); [|reflexivity].
    apply (reach_create (alone (app_call "alice" 0 OnComplete.NoOp)));
      reflexivity. }
  split; [exact H|].
  exact (reachable_is_owner_and_counter g H).
Defined.

(** One call to an existing application, accepted or not, on a store of
    the reachable shape. *)
Lemma call_step c o n :
  ApplicationID (current c) <> 0 ->
  0 <= n <= MAX_UINT64 ->
  exists n', fst (evaluate c (store o n)) = store o n'
             /\ n - 1 <= n' <= n + 1 /\ 0 <= n' <= MAX_UINT64.
Proof.
  intros Hid Hn.
  destruct (evaluate c (store o n)) as [g' [|why]] eqn:Hev; cbn.
  - destruct (called_successor _ _ _ n Hid (store_counter o n) Hev)
      as [->|[[Hlt ->]|[Hgt ->]]]; rewrite ?store_set_counter.
    + exists n. split; [done|lia].
    + exists (n + 1). split; [done|lia].
    + exists (n - 1). split; [done|lia].
  - exists n. split; [|lia].
    unfold evaluate in Hev.
    destruct (program c (boot (store o n))) as [a m|[x|b] m|f m];
      try congruence.
    destruct (x =? 0); congruence.
Qed.

(** X7.  Calls to an existing application never change the owner, and
    move the counter by at most one each: after any sequence of them, on
    a store with owner [o] and counter [n], the store has owner [o] and a
    counter within the length of the sequence of [n], still a uint64. *)
Theorem calls_keep_owner_and_drift_by_one cs o n :
  Forall (fun c => ApplicationID (current c) <> 0) cs ->
  0 <= n <= MAX_UINT64 ->
  exists n', run_calls cs (store o n) = store o n'
             /\ Z.abs (n' - n) <= Z.of_nat (length cs)
             /\ 0 <= n' <= MAX_UINT64.
Proof.
  intros Hcs. revert n.
  induction Hcs as [|c cs Hid _ IH]; intros n Hn.
  - exists n. split; [reflexivity|]. cbn. lia.
  - destruct (call_step c o n Hid Hn) as (n1 & Hstep & Hd & Hn1).
    destruct (IH n1 Hn1) as (n' & Hrun & Hd' & Hn').
    exists n'. unfold run_calls in *. cbn [fold_left length].
    rewrite Hstep, Hrun. split; [done|]. split; [lia|done].
Qed.

Lemma calls_keep_owner_and_drift_by_one_witness :
  let up := paired (payment "bob" "alice" 10000000)
                   (app_call "bob" 7 OnComplete.NoOp) in
  let down := paired (payment "bob" "alice" 1)
                     (app_call "bob" 7 OnComplete.NoOp) in
  let cs := [up; up; down; alone (app_call "bob" 7 OnComplete.DeleteApplication)] in
  Forall (fun c => ApplicationID (current c) <> 0) cs
  /\ exists n', run_calls cs (store "alice" 0) = store "alice" n'
                /\ Z.abs (n' - 0) <= Z.of_nat (length cs)
                /\ 0 <= n' <= MAX_UINT64.
Proof.
  intros up down cs.
  assert (H : Forall (fun c => ApplicationID (current c) <> 0) cs)
    by (repeat constructor; discriminate).
  assert (Hn : 0 <= 0 <= MAX_UINT64) by (split; discriminate).
  split; [exact H|].
  exact (calls_keep_owner_and_drift_by_one cs "alice" 0 H Hn).
Defined.

(** X8.  At the top of the range the increment is refused: when the group
    passes [group_checks], entry 0 pays 10_000_000 or more and the counter
    is MAX_UINT64 or more, the addition faults, the call is rejected and
    the store is unchanged; the run has read owner and counter and
    written nothing. *)
Theorem noop_increment_faults_at_max c g p n :
  invokes OnComplete.NoOp c ->
  passes group_checks c g = true ->
  group c !! 0%nat = Some p ->
  10000000 <= Amount p ->
  g !! "counter" = Some (VUint n) ->
  MAX_UINT64 <= n ->
  evaluate c g = (g, Reject (Faulted Overflow))
  /\ trace c g = [GlobalRead "owner"; GlobalRead "counter"].
Proof.
  intros Hk Hpass Hp Ha Hn Hmax.
  apply (group_checks_passes _ _ _ Hp) in Hpass as (Hty & Ho & Hty').
  assert (Hrun : program c (boot g)
                 = Panic Overflow (read "counter" (read "owner" (boot g)))).
  { rewrite (program_noop _ _ Hk).
    rewrite (increment_counter_up c (boot g) p _ n Hp Ho Hn) by done.
    by destruct (Z.leb_spec (n + 1) MAX_UINT64); [lia|]. }
  split.
  - by rewrite (evaluate_panic _ _ _ _ Hrun).
  - unfold trace. by rewrite Hrun.
Qed.

Lemma noop_increment_faults_at_max_witness :
  let c := paired (payment "bob" "alice" 25000000)
                  (app_call "bob" 7 OnComplete.NoOp) in
  let g := store "alice" MAX_UINT64 in
  (invokes OnComplete.NoOp c /\ passes group_checks c g = true
   /\ 10000000 <= 25000000 /\ MAX_UINT64 <= MAX_UINT64)
  /\ evaluate c g = (g, Reject (Faulted Overflow))
  /\ trace c g = [GlobalRead "owner"; GlobalRead "counter"].
Proof.
  intros c g.
  assert (Hk : invokes OnComplete.NoOp c)
    by (split; [discriminate|reflexivity]).
  assert (Ha : 10000000 <= 25000000) by discriminate.
  assert (Hmax : MAX_UINT64 <= MAX_UINT64) by reflexivity.
  split; [by repeat split|].
  exact (noop_increment_faults_at_max c g (payment "bob" "alice" 25000000)
           MAX_UINT64 Hk eq_refl eq_refl Ha eq_refl Hmax).
Defined.

(** X9.  A counter slot that was never written counts as 0: when the group
    passes [group_checks] and the store has no counter key, a payment of
    10_000_000 or more creates the slot with value 1, and a smaller one is
    accepted without creating it. *)
Theorem noop_missing_counter_is_zero c g p :
  invokes OnComplete.NoOp c ->
  passes group_checks c g = true ->
  group c !! 0%nat = Some p ->
  g !! "counter" = None ->
  evaluate c g
  = if 10000000 <=? Amount p
    then (<["counter" := VUint 1]> g, Accept)
    else (g, Accept).
Proof.
  intros Hk Hpass Hp Hn.
  apply (group_checks_passes _ _ _ Hp) in Hpass as (Hty & Ho & Hty').
  unfold evaluate. rewrite (program_noop _ _ Hk).
  rewrite (increment_counter_passed c (boot g) p Hp Hty Ho Hty'). cbn.
  rewrite Hn. cbn. by destruct (10000000 <=? Amount p).
Qed.

Lemma noop_missing_counter_is_zero_witness :
  let c := paired (payment "bob" "alice" 10000000)
                  (app_call "bob" 7 OnComplete.NoOp) in
  let g : gmap string teal_value := <["owner" := VBytes "alice"]> ∅ in
  (invokes OnComplete.NoOp c /\ passes group_checks c g = true
   /\ g !! "counter" = None)
  /\ evaluate c g = (store "alice" 1, Accept).
Proof.
  intros c g.
  assert (Hk : invokes OnComplete.NoOp c)
    by (split; [discriminate|reflexivity]).
  split; [by repeat split|].
  rewrite (noop_missing_counter_is_zero c g (payment "bob" "alice" 10000000)
             Hk eq_refl eq_refl eq_refl).
  reflexivity.
Defined.

(** The two moving steps from the three clauses of [group_checks]. *)
Lemma evaluate_up c g p n :
  invokes OnComplete.NoOp c ->
  group c !! 0%nat = Some p ->
  TypeEnum p = TxnType.Payment ->
  g !! "owner" = Some (VBytes (Receiver p)) ->
  TypeEnum (current c) = TxnType.ApplicationCall ->
  10000000 <= Amount p ->
  g !! "counter" = Some (VUint n) ->
  n < MAX_UINT64 ->
  evaluate c g = (<["counter" := VUint (n + 1)]> g, Accept).
Proof.
  intros Hk Hp Hty Ho Hty' Ha Hn Hmax.
  unfold evaluate. rewrite (program_noop _ _ Hk).
  rewrite (increment_counter_up c (boot g) p _ n Hp Ho Hn) by done.
  by destruct (Z.leb_spec (n + 1) MAX_UINT64); [|lia].
Qed.

Lemma evaluate_down c g p n :
  invokes OnComplete.NoOp c ->
  group c !! 0%nat = Some p ->
  TypeEnum p = TxnType.Payment ->
  g !! "owner" = Some (VBytes (Receiver p)) ->
  TypeEnum (current c) = TxnType.ApplicationCall ->
  Amount p < 10000000 ->
  g !! "counter" = Some (VUint n) ->
  0 < n ->
  evaluate c g = (<["counter" := VUint (n - 1)]> g, Accept).
Proof.
  intros Hk Hp Hty Ho Hty' Ha Hn Hpos.
  unfold evaluate. rewrite (program_noop _ _ Hk).
  rewrite (increment_counter_down c (boot g) p _ n Hp Ho Hn) by done.
  by destruct (Z.ltb_spec 0 n); [|lia].
Qed.

Lemma counter_back (g : gmap string teal_value) n n' :
  g !! "counter" = Some (VUint n) ->
  <["counter" := VUint n]> (<["counter" := VUint n']> g) = g.
Proof. intros Hn. rewrite insert_insert_eq. by apply insert_id. Qed.

(** X10.  A large payment followed by a small one undoes itself: from a
    counter below MAX_UINT64 (and not negative), an accepted increment
    followed by a decrement on a passing group gives back the very store
    the pair started from, and both calls are accepted. *)
Theorem increment_then_decrement_restores c1 c2 g p1 p2 n :
  invokes OnComplete.NoOp c1 -> invokes OnComplete.NoOp c2 ->
  passes group_checks c1 g = true -> passes group_checks c2 g = true ->
  group c1 !! 0%nat = Some p1 -> group c2 !! 0%nat = Some p2 ->
  10000000 <= Amount p1 -> Amount p2 < 10000000 ->
  g !! "counter" = Some (VUint n) ->
  0 <= n < MAX_UINT64 ->
  snd (evaluate c1 g) = Accept
  /\ evaluate c2 (fst (evaluate c1 g)) = (g, Accept).
Proof.
  intros Hk1 Hk2 Hpass1 Hpass2 Hp1 Hp2 Ha1 Ha2 Hn Hrange.
  apply (group_checks_passes _ _ _ Hp1) in Hpass1 as (Hty1 & Ho1 & Hty1').
  apply (group_checks_passes _ _ _ Hp2) in Hpass2 as (Hty2 & Ho2 & Hty2').
  rewrite (evaluate_up c1 g p1 n) by (done || lia).
  split; [reflexivity|]. cbn [fst].
  rewrite (evaluate_down c2 _ p2 (n + 1)); try done.
  - by rewrite Z.add_simpl_r, counter_back.
  - by rewrite lookup_insert_ne.
  - apply lookup_insert_eq.
  - lia.
Qed.

Lemma increment_then_decrement_restores_witness :
  let c1 := paired (payment "bob" "alice" 10000000)
                   (app_call "bob" 7 OnComplete.NoOp) in
  let c2 := paired (payment "carol" "alice" 9999999)
                   (app_call "carol" 7 OnComplete.NoOp) in
  let g := store "alice" 0 in
  (invokes OnComplete.NoOp c1 /\ invokes OnComplete.NoOp c2
   /\ passes group_checks c1 g = true /\ passes group_checks c2 g = true)
  /\ snd (evaluate c1 g) = Accept
  /\ evaluate c2 (fst (evaluate c1 g)) = (g, Accept).
Proof.
  intros c1 c2 g.
  assert (Hk1 : invokes OnComplete.NoOp c1)
    by (split; [discriminate|reflexivity]).
  assert (Hk2 : invokes OnComplete.NoOp c2)
    by (split; [discriminate|reflexivity]).
  assert (Ha1 : 10000000 <= 10000000) by discriminate.
  assert (Ha2 : 9999999 < 10000000) by reflexivity.
  assert (Hn : 0 <= 0 < MAX_UINT64) by (split; [discriminate|reflexivity]).
  split; [by repeat split|].
  exact (increment_then_decrement_restores c1 c2 g
           (payment "bob" "alice" 10000000) (payment "carol" "alice" 9999999)
           0 Hk1 Hk2 eq_refl eq_refl eq_refl eq_refl Ha1 Ha2 eq_refl Hn).
Defined.

(** X11.  And the other way round: from a counter above 0 (and a uint64),
    an accepted decrement followed by an increment on a passing group
    gives back the store the pair started from. *)
Theorem decrement_then_increment_restores c1 c2 g p1 p2 n :
  invokes OnComplete.NoOp c1 -> invokes OnComplete.NoOp c2 ->
  passes group_checks c1 g = true -> passes group_checks c2 g = true ->
  group c1 !! 0%nat = Some p1 -> group c2 !! 0%nat = Some p2 ->
  Amount p1 < 10000000 -> 10000000 <= Amount p2 ->
  g !! "counter" = Some (VUint n) ->
  0 < n <= MAX_UINT64 ->
  snd (evaluate c1 g) = Accept
  /\ evaluate c2 (fst (evaluate c1 g)) = (g, Accept).
Proof.
  intros Hk1 Hk2 Hpass1 Hpass2 Hp1 Hp2 Ha1 Ha2 Hn Hrange.
  apply (group_checks_passes _ _ _ Hp1) in Hpass1 as (Hty1 & Ho1 & Hty1').
  apply (group_checks_passes _ _ _ Hp2) in Hpass2 as (Hty2 & Ho2 & Hty2').
  rewrite (evaluate_down c1 g p1 n) by (done || lia).
  split; [reflexivity|]. cbn [fst].
  rewrite (evaluate_up c2 _ p2 (n - 1)); try done.
  - by rewrite Z.sub_simpl_r, counter_back.
  - by rewrite lookup_insert_ne.
  - apply lookup_insert_eq.
  - lia.
Qed.

Lemma decrement_then_increment_restores_witness :
  let c1 := paired (payment "carol" "alice" 0)
                   (app_call "carol" 7 OnComplete.NoOp) in
  let c2 := paired (payment "bob" "alice" 10000000)
                   (app_call "bob" 7 OnComplete.NoOp) in
  let g := store "alice" MAX_UINT64 in
  (invokes OnComplete.NoOp c1 /\ invokes OnComplete.NoOp c2
   /\ passes group_checks c1 g = true /\ passes group_checks c2 g = true)
  /\ snd (evaluate c1 g) = Accept
  /\ evaluate c2 (fst (evaluate c1 g)) = (g, Accept).
Proof.
  intros c1 c2 g.
  assert (Hk1 : invokes OnComplete.NoOp c1)
    by (split; [discriminate|reflexivity]).
  assert (Hk2 : invokes OnComplete.NoOp c2)
    by (split; [discriminate|reflexivity]).
  assert (Ha1 : 0 < 10000000) by reflexivity.
  assert (Ha2 : 10000000 <= 10000000) by discriminate.
  assert (Hn : 0 < MAX_UINT64 <= MAX_UINT64)
    by (split; [reflexivity|discriminate]).
  split; [by repeat split|].
  exact (decrement_then_increment_restores c1 c2 g
           (payment "carol" "alice" 0) (payment "bob" "alice" 10000000)
           MAX_UINT64 Hk1 Hk2 eq_refl eq_refl eq_refl eq_refl Ha1 Ha2
           eq_refl Hn).
Defined.

(** X12.  Every uint64 is a counter value some sequence of accepted calls
    reaches, for every owner: the top of the range, where the increment
    faults, is a store the ledger can hold. *)
Theorem every_counter_value_reachable o n :
  0 <= n <= MAX_UINT64 -> reachable (store o n).
Proof.
  intros [Hpos Hmax]. revert Hmax. pattern n.
  apply natlike_ind; [| |exact Hpos]; clear n Hpos.
  - intros _.
    by apply (reach_create (alone (app_call o 0 OnComplete.NoOp))).
  - intros n Hpos IH Hmax.
    apply (reach_call (paired (payment o o 10000000)
                              (app_call o 1 OnComplete.NoOp))
                      (store o n)); [apply IH; lia|].
    rewrite (evaluate_up _ _ (payment o o 10000000) n); [done..|lia].
Qed.

Lemma every_counter_value_reachable_witness :
  0 <= 12345678901234567890 <= MAX_UINT64
  /\ reachable (store "alice" 12345678901234567890).
Proof.
  assert (H : 0 <= 12345678901234567890 <= MAX_UINT64)
    by (split; discriminate).
  split; [exact H|].
  exact (every_counter_value_reachable "alice" 12345678901234567890 H).
Defined.

(** X13.  A NoOp call is judged on the type, receiver and amount of entry
    0 and on the type of the call, and on nothing else in the group:
    neither who sends the payment nor who makes the call matters, so any
    account may move the counter. *)
Theorem noop_ignores_senders c c' g p p' :
  invokes OnComplete.NoOp c -> invokes OnComplete.NoOp c' ->
  group c !! 0%nat = Some p -> group c' !! 0%nat = Some p' ->
  TypeEnum p = TypeEnum p' -> Receiver p = Receiver p' ->
  Amount p = Amount p' ->
  TypeEnum (current c) = TypeEnum (current c') ->
  evaluate c g = evaluate c' g /\ trace c g = trace c' g.
Proof.
  intros Hk Hk' Hp Hp' Hty Hrc Ham Hty'.
  assert (Hrun : program c (boot g) = program c' (boot g)).
  { rewrite (program_noop _ _ Hk), (program_noop _ _ Hk').
    teal_unfold. by rewrite Hp, Hp', Hty, Hrc, Ham, Hty'. }
  unfold evaluate, trace. by rewrite Hrun.
Qed.

Lemma noop_ignores_senders_witness :
  let c := paired (payment "bob" "alice" 10000000)
                  (app_call "bob" 7 OnComplete.NoOp) in
  let c' := paired (payment "carol" "alice" 10000000)
                   (app_call "dave" 7 OnComplete.NoOp) in
  let g := store "alice" 5 in
  (invokes OnComplete.NoOp c /\ invokes OnComplete.NoOp c')
  /\ evaluate c g = evaluate c' g /\ trace c g = trace c' g.
Proof.
  intros c c' g.
  assert (Hk : invokes OnComplete.NoOp c)
    by (split; [discriminate|reflexivity]).
  assert (Hk' : invokes OnComplete.NoOp c')
    by (split; [discriminate|reflexivity]).
  split; [by split|].
  exact (noop_ignores_senders c c' g (payment "bob" "alice" 10000000)
           (payment "carol" "alice" 10000000)
           Hk Hk' eq_refl eq_refl eq_refl eq_refl eq_refl eq_refl).
Defined.

(** X14.  [group_checks] has no short cut: whichever clauses hold, its
    evaluation reads the owner slot exactly once and touches nothing
    else, and it passes exactly when entry 0 is a payment, the owner slot
    holds the bytes of entry 0's receiver, and the call is an application
    call. *)
Theorem group_checks_strict c g p :
  group c !! 0%nat = Some p ->
  final (group_checks c (boot g)) = read "owner" (boot g)
  /\ (passes group_checks c g = true <->
      TypeEnum p = TxnType.Payment
      /\ g !! "owner" = Some (VBytes (Receiver p))
      /\ TypeEnum (current c) = TxnType.ApplicationCall).
Proof.
  intros Hp. split; [|by apply group_checks_passes].
  rewrite (group_checks_run _ _ _ Hp).
  by destruct (default _ _).
Qed.

Lemma group_checks_strict_witness :
  let c := paired (app_call "bob" 7 OnComplete.NoOp)
                  (payment "bob" "carol" 3) in
  let p := app_call "bob" 7 OnComplete.NoOp in
  let g := store "alice" 5 in
  group c !! 0%nat = Some p
  /\ final (group_checks c (boot g)) = read "owner" (boot g)
  /\ (passes group_checks c g = true <->
      TypeEnum p = TxnType.Payment
      /\ g !! "owner" = Some (VBytes (Receiver p))
      /\ TypeEnum (current c) = TxnType.ApplicationCall).
Proof.
  intros c p g. split; [reflexivity|].
  exact (group_checks_strict c g p eq_refl).
Defined.

Lemma increment_counter_refused_bytes c m p o :
  group c !! 0%nat = Some p ->
  globals m !! "owner" = Some (VBytes o) ->
  TypeEnum p <> TxnType.Payment
  \/ globals m !! "owner" <> Some (VBytes (Receiver p))
  \/ TypeEnum (current c) <> TxnType.ApplicationCall ->
  increment_counter c m = Panic AssertFailed (read "owner" m).
Proof.
  intros Hp Ho Hbad.
  unfold increment_counter. cbn [Seq]. cbv [bind Assert].
  rewrite (group_checks_run _ _ _ Hp), Ho. cbn.
  destruct (bool_decide_reflect (TypeEnum p = TxnType.Payment)); cbn; auto.
  destruct (String.eqb_spec (Receiver p) o); cbn; auto.
  destruct (bool_decide_reflect
              (TypeEnum (current c) = TxnType.ApplicationCall)); cbn; auto.
  subst o. rewrite Ho in Hbad. tauto.
Qed.

(** X15.  On a reachable store no call meets a type mismatch: the only
    ways to be rejected are a returned zero (Delete or Update by someone
    else than the owner), [err] (ClearState), the failed assertion of
    [group_checks], and the overflow of the increment. *)
Theorem reachable_store_never_mistyped c g :
  reachable g ->
  snd (evaluate c g)
  ∈ [Accept; Reject ReturnedZero; Reject (Faulted ErrOpcode);
     Reject (Faulted AssertFailed); Reject (Faulted Overflow)].
Proof.
  intros (o & n & -> & Hn)%reachable_store.
  unfold evaluate.
  destruct (Z.eq_dec (ApplicationID (current c)) 0) as [Hid|Hid].
  { rewrite (program_create _ _ Hid). cbn. repeat constructor. }
  rewrite (program_called _ _ Hid).
  destruct (OnCompletion (current c)); try (cbn; by repeat constructor).
  - pose proof (group_first c) as Hp.
    set (p := default (current c) (head (earlier c))) in Hp.
    destruct (group_checks_cases c (boot (store o n)) p)
      as [(Hk & Ho & Hk')|Hbad].
    + rewrite (increment_counter_passed _ _ _ Hp Hk Ho Hk').
      cbn [boot globals]. rewrite store_counter. cbn.
      destruct (10000000 <=? Amount p);
        [destruct (n + 1 <=? MAX_UINT64)|destruct (0 <? n)];
        cbn; by repeat constructor.
    + rewrite (increment_counter_refused_bytes _ _ _ o Hp);
        [cbn; by repeat constructor|apply store_owner|done].
  - rewrite return_is_owner_run. cbn [boot globals]. rewrite store_owner.
    cbn. destruct (String.eqb _ o); cbn; by repeat constructor.
  - rewrite return_is_owner_run. cbn [boot globals]. rewrite store_owner.
    cbn. destruct (String.eqb _ o); cbn; by repeat constructor.
Qed.

Lemma reachable_store_never_mistyped_witness :
  let c := alone (app_call "bob" 7 OnComplete.UpdateApplication) in
  let g := store "alice" 0 in
  reachable g
  /\ snd (evaluate c g)
     ∈ [Accept; Reject ReturnedZero; Reject (Faulted ErrOpcode);
        Reject (Faulted AssertFailed); Reject (Faulted Overflow)].
Proof.
  intros c g.
  assert (H : reachable g)
    by (by apply (reach_create (alone (app_call "alice" 0 OnComplete.NoOp)))).
  split; [exact H|].
  exact (reachable_store_never_mistyped c g H).
Defined.

Lemma increment_counter_keeps k :
  k <> "counter" -> keeps k increment_counter.
Proof.
  intros Hk. assert (Hk' : "counter" <> k) by congruence. teal_frame.
Qed.

(** X16.  A call to an existing application writes no slot but the
    counter, on any store and whether it is accepted or not: every write
    in its run names the key counter. *)
Theorem calls_write_counter_only c g k v :
  ApplicationID (current c) <> 0 ->
  GlobalWrite k v ∈ trace c g ->
  k = "counter".
Proof.
  intros Hid Hin. destruct (decide (k = "counter")) as [|Hk]; [done|].
  exfalso. unfold trace in Hin. rewrite (program_called _ _ Hid) in Hin.
  assert (Hkeep : forall x : TEAL unit, keeps k x ->
                    GlobalWrite k v ∉ effects (final (x c (boot g)))).
  { intros x Hx. destruct (Hx c (boot g)) as [_ (es & -> & Hw)]. apply Hw. }
  destruct (OnCompletion (current c)).
  - by apply (Hkeep _ (increment_counter_keeps k Hk)).
  - by apply elem_of_nil in Hin.
  - by apply elem_of_nil in Hin.
  - by apply elem_of_nil in Hin.
  - by apply (Hkeep _ (is_owner_keeps k)).
  - by apply (Hkeep _ (is_owner_keeps k)).
Qed.

Lemma calls_write_counter_only_witness :
  let c := paired (payment "bob" "alice" 10000000)
                  (app_call "bob" 7 OnComplete.NoOp) in
  let g := store "alice" 0 in
  (ApplicationID (current c) <> 0
   /\ GlobalWrite "counter" (VUint 1) ∈ trace c g)
  /\ "counter" = "counter".
Proof.
  intros c g.
  assert (Hid : ApplicationID (current c) <> 0) by discriminate.
  assert (Hin : GlobalWrite "counter" (VUint 1) ∈ trace c g)
    by (vm_compute; repeat constructor).
  split; [by split|].
  exact (calls_write_counter_only c g "counter" (VUint 1) Hid Hin).
Defined.
